(** * FastSLAM 1.0 particle filter: nova_rover_demos/SLAM/fastSLAM.py

    A shallow embedding of the filter core (motion model, particle
    prediction, weight normalisation, resampling, particle construction)
    together with the properties its design document states about it.

    Conventions of the embedding.

    - Python floats.  A finite float is modelled by the rational number it
      denotes.  The functions are read in two ways.  In the first, finite
      arithmetic is exact (rounding is idealised).  In the second, the
      module [Rounded], every arithmetic operation of the angle
      normalisation and of the weight computations is followed by a
      rounding function, and [round64] is the rounding of binary64; what
      depends on the rounding is stated on this reading.  The particle
      weights additionally range over the IEEE special values [PInf],
      [NInf] and [NaN], because the design document talks about non-finite
      weight sums.  Pose components, controls and random draws are finite
      and therefore plain rationals.
    - Exceptions.  Code that can raise returns [res A = exn + A].
    - Randomness.  [np.random.randn(1, 2)] in the i-th iteration of
      [predict_particles] is the pair [randn i]; the vector
      [np.random.rand(N)] drawn in [resampling] is [rand 0 .. rand (N-1)].
    - [math.cos], [math.sin] are parameters [cos], [sin].
    - Objects.  A Python list of [Particle] objects is a [list Particle.t];
      the position in the list is the identity of the object, so an
      attribute assignment [particles[i].f = v] is a list update at [i].
      numpy arrays live in a [heap] and are referred to by location, so that
      two array objects over one buffer (a view and its base) are one
      location.
    - The module constant [N_PARTICLE] is the parameter [N] of the
      functions; the source fixes it to 100 (a positive constant). *)

From Stdlib Require Import QArith Qabs Qround Qpower Lia Lqa Bool.
From stdpp Require Import base list.

Open Scope Q_scope.

(** ** Exceptions *)

Inductive exn : Type := IndexError | ZeroDivisionError | ValueError.

Definition res (A : Type) : Type := (exn + A)%type.

Definition ret {A : Type} (a : A) : res A := inr a.

Definition raise {A : Type} (e : exn) : res A := inl e.

Definition bind {A B : Type} (m : res A) (k : A -> res B) : res B :=
  match m with
  | inl e => inl e
  | inr a => k a
  end.

Notation "'let*' x ':=' m 'in' k" := (bind m (fun x => k))
  (at level 10, x name, m at level 100, k at level 200).

(** [l[i]] on a Python list or a one-dimensional array. *)
Definition index {A : Type} (l : list A) (i : nat) : res A :=
  match l !! i with
  | Some a => ret a
  | None => raise IndexError
  end.

(** [for i in range(n): s = body(i, s)], counting up from [start]. *)
Fixpoint for_range_from {S : Type} (start n : nat)
    (body : nat -> S -> res S) (s : S) : res S :=
  match n with
  | O => ret s
  | Datatypes.S n' =>
      let* s' := body start s in for_range_from (Datatypes.S start) n' body s'
  end.

Definition for_range {S : Type} (n : nat) (body : nat -> S -> res S) (s : S) : res S :=
  for_range_from 0 n body s.

(** ** Floats with the IEEE special values *)

Module PyFloat.

Inductive float : Type :=
  | Fin (q : Q)
  | PInf
  | NInf
  | NaN.

Definition finite (a : float) : Prop :=
  match a with Fin _ => True | _ => False end.

(** Equality of float values: finite values are compared as rationals. *)
Definition feq (a b : float) : Prop :=
  match a, b with
  | Fin p, Fin q => p == q
  | PInf, PInf | NInf, NInf | NaN, NaN => True
  | _, _ => False
  end.

Definition Qlt_bool (p q : Q) : bool := negb (Qle_bool q p).

Definition fneg (a : float) : float :=
  match a with
  | Fin q => Fin (- q)
  | PInf => NInf
  | NInf => PInf
  | NaN => NaN
  end.

Definition fadd (a b : float) : float :=
  match a, b with
  | NaN, _ | _, NaN => NaN
  | Fin p, Fin q => Fin (p + q)
  | PInf, NInf | NInf, PInf => NaN
  | PInf, _ | _, PInf => PInf
  | NInf, _ | _, NInf => NInf
  end.

Definition fsub (a b : float) : float := fadd a (fneg b).

(** The infinity, or NaN, that a product or quotient with an infinite
    operand takes from the sign of its finite operand. *)
Definition inf_of_sign (q : Q) (neg : bool) : float :=
  match q ?= 0 with
  | Eq => NaN
  | Gt => if neg then NInf else PInf
  | Lt => if neg then PInf else NInf
  end.

Definition fmul (a b : float) : float :=
  match a, b with
  | NaN, _ | _, NaN => NaN
  | Fin p, Fin q => Fin (p * q)
  | Fin p, PInf | PInf, Fin p => inf_of_sign p false
  | Fin p, NInf | NInf, Fin p => inf_of_sign p true
  | PInf, PInf | NInf, NInf => PInf
  | PInf, NInf | NInf, PInf => NInf
  end.

(** numpy's [/] ([true_divide]): a zero divisor gives an infinity or NaN
    (and a warning), never an exception.  Zero is taken as positive. *)
Definition np_div (a b : float) : float :=
  match a, b with
  | NaN, _ | _, NaN => NaN
  | Fin p, Fin q => if Qeq_bool q 0 then inf_of_sign p false else Fin (p / q)
  | Fin _, PInf | Fin _, NInf => Fin 0
  | PInf, Fin q => if Qlt_bool q 0 then NInf else PInf
  | NInf, Fin q => if Qlt_bool q 0 then PInf else NInf
  | _, _ => NaN
  end.

(** Python's [/] on two floats: a zero divisor raises. *)
Definition py_div (a b : float) : res float :=
  match b with
  | Fin q => if Qeq_bool q 0 then raise ZeroDivisionError else ret (np_div a b)
  | _ => ret (np_div a b)
  end.

(** [a < b]; every comparison with NaN is false. *)
Definition flt (a b : float) : bool :=
  match a, b with
  | Fin p, Fin q => Qlt_bool p q
  | NInf, Fin _ | NInf, PInf | Fin _, PInf => true
  | _, _ => false
  end.

Definition fgt (a b : float) : bool := flt b a.

(** [sum(ws)]: Python's [sum] starts from 0 and adds from the left. *)
Definition fsum (ws : list float) : float := fold_left fadd ws (Fin 0).

(** [np.matmul(a, b.T)] of two one-dimensional arrays: their dot product. *)
Definition fdot (a b : list float) : float := fsum (zip_with fmul a b).

(** [np.cumsum]. *)
Fixpoint cumsum_from (acc : float) (ws : list float) : list float :=
  match ws with
  | [] => []
  | w :: r => fadd acc w :: cumsum_from (fadd acc w) r
  end.

Definition np_cumsum (ws : list float) : list float :=
  match ws with
  | [] => []
  | w :: r => w :: cumsum_from w r
  end.

End PyFloat.

Import PyFloat.

(** ** Module constants *)

(** [math.pi], the double nearest to pi, as the rational it denotes. *)
Definition math_pi : Q := 884279719003555 # 281474976710656.

Definition deg2rad (d : Q) : Q := d * (math_pi / 180).

Definition DT : Q := 1 # 10.

Definition STATE_SIZE : nat := 3.

Definition LM_SIZE : nat := 2.

Definition N_PARTICLE : nat := 100.

Definition Qnat (n : nat) : Q := inject_Z (Z.of_nat n).

(** [1.0 / N_PARTICLE] *)
Definition inv_N (N : nat) : Q := 1 / Qnat N.

(** [NTH = N_PARTICLE / 1.5] *)
Definition NTH (N : nat) : Q := Qnat N / (3 # 2).

(** ** Two-dimensional numpy arrays of finite floats *)

Definition matrix : Type := list (list Q).

(** [m[i, j]] *)
Definition mget (m : matrix) (i j : nat) : res Q :=
  let* row := index m i in index row j.

(** [m[i, j] = v], as a new value of the array *)
Definition mset (m : matrix) (i j : nat) (v : Q) : res matrix :=
  let* row := index m i in
  let* _ := index row j in
  ret (<[i := <[j := v]> row]> m).

Definition ncols (m : matrix) : nat :=
  match m with
  | [] => 0%nat
  | r :: _ => length r
  end.

Definition rectangular (m : matrix) : bool :=
  forallb (fun r => Nat.eqb (length r) (ncols m)) m.

Definition column (m : matrix) (j : nat) : list Q :=
  map (fun r => nth j r 0) m.

(** [m.T] *)
Definition transpose (m : matrix) : matrix :=
  map (column m) (seq 0 (ncols m)).

Definition dot (r c : list Q) : Q := fold_left Qplus (zip_with Qmult r c) 0.

(** [a @ b]: the inner dimensions must agree. *)
Definition matmul (a b : matrix) : res matrix :=
  if rectangular a && rectangular b && Nat.eqb (ncols a) (length b)
  then ret (map (fun r => map (fun j => dot r (column b j)) (seq 0 (ncols b))) a)
  else raise ValueError.

(** The broadcast of two dimensions: they are equal, or one of them is 1. *)
Definition broadcast_dim (m n : nat) : option nat :=
  if Nat.eqb m n then Some m
  else if Nat.eqb m 1 then Some n
  else if Nat.eqb n 1 then Some m
  else None.

(** A list of one entry repeated [n] times; any other list as it is. *)
Definition stretch {A : Type} (n : nat) (l : list A) : list A :=
  match l with
  | [a] => replicate n a
  | _ => l
  end.

(** [a + b] with numpy's broadcasting of two-dimensional arrays (an array
    without rows counts as one without columns). *)
Definition madd (a b : matrix) : res matrix :=
  if rectangular a && rectangular b then
    match broadcast_dim (length a) (length b),
          broadcast_dim (ncols a) (ncols b) with
    | Some r, Some c =>
        ret (zip_with (zip_with Qplus)
               (map (stretch c) (stretch r a)) (map (stretch c) (stretch r b)))
    | _, _ => raise ValueError
    end
  else raise ValueError.

(** [np.zeros((r, c))] *)
Definition np_zeros (r c : nat) : matrix := replicate r (replicate c 0).

(** [np.diag([1.0, np.deg2rad(20.0)])]: the matrix whose element-wise
    square is the process noise covariance [R]. *)
Definition R_diag : matrix := [[1; 0]; [0; deg2rad 20]].

(** [R = np.diag([1.0, np.deg2rad(20.0)]) ** 2] *)
Definition R : matrix := map (map (fun e => e * e)) R_diag.

(** [R ** 0.5], the element-wise square root of [R]: the entries of
    [R_diag] are non-negative, so it is [R_diag] again. *)
Definition R_sqrt : matrix := R_diag.

(** ** Angle normalisation *)

(** Python's [a % b] on floats, for a positive [b]: the result has the
    sign of the divisor. *)
Definition Qmod (a b : Q) : Q := a - inject_Z (Qfloor (a / b)) * b.

Definition pi_2_pi (angle : Q) : Q :=
  Qmod (angle + math_pi) (2 * math_pi) - math_pi.

(** ** Particles and the array heap *)

Definition loc : Type := nat.

Definition heap : Type := list matrix.

(** A new array object with its own buffer. *)
Definition alloc (h : heap) (a : matrix) : loc * heap := (length h, h ++ [a]).

Module Particle.

Record t : Type := mk {
  w : float;
  x : Q;
  y : Q;
  yaw : Q;
  lm : loc;
  lmP : loc
}.

Definition set_w (p : t) (v : float) : t :=
  mk v (x p) (y p) (yaw p) (lm p) (lmP p).

Definition set_pose (p : t) (vx vy vyaw : Q) : t :=
  mk (w p) vx vy vyaw (lm p) (lmP p).

End Particle.

(** [Particle.__init__(self, N_LM)] *)
Definition Particle_init (N N_LM : nat) (h : heap) : Particle.t * heap :=
  let '(l, h1) := alloc h (np_zeros N_LM LM_SIZE) in
  let '(lP, h2) := alloc h1 (np_zeros (N_LM * LM_SIZE) LM_SIZE) in
  (Particle.mk (Fin (inv_N N)) 0 0 0 l lP, h2).

(** [[Particle(N_LM) for _ in range(n)]] *)
Fixpoint new_particles (N N_LM n : nat) (h : heap) : list Particle.t * heap :=
  match n with
  | O => ([], h)
  | S n' =>
      let '(p, h1) := Particle_init N N_LM h in
      let '(ps, h2) := new_particles N N_LM n' h1 in
      (p :: ps, h2)
  end.

(** The landmark table [RFID] of [main]. *)
Definition RFID : matrix :=
  [[10; -2]; [15; 10]; [15; 15]; [10; 20]; [3; 15]; [-5; 20]; [-5; 5]; [-10; 15]].

(** The particle set [main] starts from: [N_LM = RFID.shape[0]]. *)
Definition main_particles (N : nat) : list Particle.t * heap :=
  new_particles N (length RFID) N [].

(** [p.lmP[r, c]] and [p.lmP[r, c] = v] through the heap *)
Definition get_lmP (h : heap) (p : Particle.t) (r c : nat) : res Q :=
  let* a := index h (Particle.lmP p) in mget a r c.

Definition set_lmP (h : heap) (p : Particle.t) (r c : nat) (v : Q) : res heap :=
  let* a := index h (Particle.lmP p) in
  let* a' := mset a r c v in
  ret (<[Particle.lmP p := a']> h).

(** [p.lm[r, c]] and [p.lm[r, c] = v] through the heap *)
Definition get_lm (h : heap) (p : Particle.t) (r c : nat) : res Q :=
  let* a := index h (Particle.lm p) in mget a r c.

Definition set_lm (h : heap) (p : Particle.t) (r c : nat) (v : Q) : res heap :=
  let* a := index h (Particle.lm p) in
  let* a' := mset a r c v in
  ret (<[Particle.lm p := a']> h).

(** ** The filter *)

Section Filter.

Variable N : nat.
Variables cos sin : Q -> Q.

(** [motion_model(x, u)].  [F @ x + B @ u] is a new array, and only that
    new array is written to: the argument is left as it was. *)
Definition motion_model (x u : matrix) : res matrix :=
  let F := [[1; 0; 0]; [0; 1; 0]; [0; 0; 1]] in
  let* yaw0 := mget x 2 0 in
  let B := [[DT * cos yaw0; 0]; [DT * sin yaw0; 0]; [0; DT]] in
  let* Fx := matmul F x in
  let* Bu := matmul B u in
  let* x1 := madd Fx Bu in
  let* yaw1 := mget x1 2 0 in
  mset x1 2 0 (pi_2_pi yaw1).

(** The body of the loop of [predict_particles].  [px] is the
    [STATE_SIZE x 1] array filled from the pose of particle [i]. *)
Definition predict_step (randn : nat -> Q * Q) (u : matrix)
    (i : nat) (particles : list Particle.t) : res (list Particle.t) :=
  let* p := index particles i in
  let px := [[Particle.x p]; [Particle.y p]; [Particle.yaw p]] in
  let* noise := matmul [[fst (randn i); snd (randn i)]] R_sqrt in
  let* ud := madd u (transpose noise) in
  let* px' := motion_model px ud in
  let* vx := mget px' 0 0 in
  let* vy := mget px' 1 0 in
  let* vyaw := mget px' 2 0 in
  ret (<[i := Particle.set_pose p vx vy vyaw]> particles).

Definition predict_particles (randn : nat -> Q * Q)
    (particles : list Particle.t) (u : matrix) : res (list Particle.t) :=
  for_range N (predict_step randn u) particles.

(** [normalize_weight(particles)].  The division raises only for a zero
    [sumw], and then in the first iteration, before any weight has been
    written: the handler starts from the particles as they were. *)
Definition normalize_weight (particles : list Particle.t) : res (list Particle.t) :=
  let sumw := fsum (map Particle.w particles) in
  let divide := for_range N (fun i ps =>
      let* p := index ps i in
      let* v := py_div (Particle.w p) sumw in
      ret (<[i := Particle.set_w p v]> ps)) particles in
  match divide with
  | inl ZeroDivisionError =>
      for_range N (fun i ps =>
        let* p := index ps i in
        ret (<[i := Particle.set_w p (Fin (inv_N N))]> ps)) particles
  | r => r
  end.

(** [pw]: the weights of the first [N] particles. *)
Definition weights (particles : list Particle.t) : res (list float) :=
  for_range N (fun i pw =>
    let* p := index particles i in ret (pw ++ [Particle.w p])) [].

(** [Neff = 1.0 / np.matmul(pw, pw.T)] *)
Definition Neff (pw : list float) : float := np_div (Fin 1) (fdot pw pw).

(** [base = np.cumsum(pw * 0.0 + 1 / N_PARTICLE) - 1 / N_PARTICLE] *)
Definition resample_base (pw : list float) : list float :=
  map (fun c => fsub c (Fin (inv_N N)))
      (np_cumsum (map (fun v => fadd (fmul v (Fin 0)) (Fin (inv_N N))) pw)).

(** [resampleid = base + np.random.rand(base.shape[0]) / N_PARTICLE] *)
Definition resampleid (rand : nat -> Q) (pw : list float) : list float :=
  imap (fun i b => fadd b (np_div (Fin (rand i)) (Fin (Qnat N)))) (resample_base pw).

(** [while (ind < wcum.shape[0] - 1) and (resampleid[ip] > wcum[ind]):
    ind += 1].  Each turn advances [ind], so [wcum.shape[0] - 1 - ind]
    turns are enough: [fuel] counts them, and when none is left the first
    conjunct is false. *)
Fixpoint scan_from (fuel : nat) (wcum ids : list float) (ip ind : nat) : res nat :=
  match fuel with
  | O => ret ind
  | S fuel' =>
      if (ind <? length wcum - 1)%nat then
        let* target := index ids ip in
        let* c := index wcum ind in
        if fgt target c then scan_from fuel' wcum ids ip (S ind) else ret ind
      else ret ind
  end.

Definition scan (wcum ids : list float) (ip ind : nat) : res nat :=
  scan_from (length wcum - 1 - ind) wcum ids ip ind.

(** The loop that fills [inds]; the state is [(ind, inds)]. *)
Definition select_inds (wcum ids : list float) : res (list nat) :=
  let* st := for_range N (fun ip st =>
      let* ind := scan wcum ids ip (fst st) in
      ret (ind, snd st ++ [ind])) (0%nat, []) in
  ret (snd st).

(** The loop that overwrites the particles.  [tparticles = particles[:]]
    is a new list of the same objects, so [tparticles[inds[i]]] is read
    from the particles as the earlier iterations left them.  The slices
    [lm[:, :]] and [lmP[:, :]] are views: new array objects over the
    buffer of the source. *)
Definition copy_step (inds : list nat) (i : nat) (particles : list Particle.t)
    : res (list Particle.t) :=
  let* j := index inds i in
  let* dst := index particles i in
  let* src := index particles j in
  ret (<[i := Particle.mk (Fin (inv_N N)) (Particle.x src) (Particle.y src)
                (Particle.yaw src) (Particle.lm src) (Particle.lmP src)]> particles).

(** [resampling(particles)] *)
Definition resampling (rand : nat -> Q) (particles : list Particle.t)
    : res (list Particle.t) :=
  let* particles := normalize_weight particles in
  let* pw := weights particles in
  if flt (Neff pw) (Fin (NTH N)) then
    let wcum := np_cumsum pw in
    let* inds := select_inds wcum (resampleid rand pw) in
    for_range (length inds) (copy_step inds) particles
  else ret particles.

(** [fast_slam1(particles, u, z)]: between the two calls the source has
    the comment [# update with observations] and no statement. *)
Definition fast_slam1 (randn : nat -> Q * Q) (rand : nat -> Q)
    (particles : list Particle.t) (u z : matrix) : res (list Particle.t) :=
  let* particles := predict_particles randn particles u in
  resampling rand particles.

End Filter.

(** ** The driver loop *)

(** What one turn of the loop of [main] hands to [fast_slam1]: the random
    draws of the turn, the control [ud] and the observation batch [z]. *)
Record step_input : Type := {
  step_randn : nat -> Q * Q;
  step_rand : nat -> Q;
  step_v : Q;
  step_omega : Q;
  step_z : matrix
}.

(** A pose as a [STATE_SIZE x 1] array, and a control as the array
    [np.array([v, yawrate]).reshape(2, 1)]. *)
Definition pose_array (vx vy vyaw : Q) : matrix := [[vx]; [vy]; [vyaw]].

Definition control_array (v omega : Q) : matrix := [[v]; [omega]].

(** [particles = fast_slam1(particles, ud, z)], once per turn. *)
Fixpoint main_loop (N : nat) (cos sin : Q -> Q) (steps : list step_input)
    (particles : list Particle.t) : res (list Particle.t) :=
  match steps with
  | [] => ret particles
  | s :: steps' =>
      let* particles' :=
        fast_slam1 N cos sin (step_randn s) (step_rand s) particles
          (control_array (step_v s) (step_omega s)) (step_z s) in
      main_loop N cos sin steps' particles'
  end.

(** ** The state estimator *)



(** ** Vocabulary of the properties *)

Fixpoint Qsum (l : list Q) : Q :=
  match l with
  | [] => 0
  | a :: r => a + Qsum r
  end.

(** The cumulative sums of a list of rationals. *)
Fixpoint Qcumsum_from (acc : Q) (qs : list Q) : list Q :=
  match qs with
  | [] => []
  | q :: r => (acc + q) :: Qcumsum_from (acc + q) r
  end.

Definition Qcumsum (qs : list Q) : list Q :=
  match qs with
  | [] => []
  | q :: r => q :: Qcumsum_from q r
  end.

(** [base] over the rationals. *)
Definition Qbase (N : nat) (qs : list Q) : list Q :=
  map (fun c => c + - inv_N N) (Qcumsum (map (fun q => q * 0 + inv_N N) qs)).

(** [resampleid] over the rationals. *)
Definition Qtargets (N : nat) (rand : nat -> Q) (qs : list Q) : list Q :=
  imap (fun i b => b + rand i / Qnat N) (Qbase N qs).

(** The divisor for which Python's float division raises. *)
Definition is_zero (a : float) : bool :=
  match a with
  | Fin q => Qeq_bool q 0
  | _ => false
  end.

(** Every weight of the set is 1/N. *)
Definition uniform (N : nat) (particles : list Particle.t) : Prop :=
  Forall (fun p => feq (Particle.w p) (Fin (inv_N N))) particles.

(** The target of output slot [i]: [i/N + r_i/N]. *)
Definition target (N : nat) (rand : nat -> Q) (i : nat) : Q :=
  Qnat i / Qnat N + rand i / Qnat N.

(** The particle sets the driver can reach from the set it constructs. *)
Inductive reachable (N : nat) (cos sin : Q -> Q) : list Particle.t -> Prop :=
  | reachable_init : reachable N cos sin (fst (main_particles N))
  | reachable_step (s : step_input) (ps ps' : list Particle.t) :
      reachable N cos sin ps ->
      fast_slam1 N cos sin (step_randn s) (step_rand s) ps
        (control_array (step_v s) (step_omega s)) (step_z s) = inr ps' ->
      reachable N cos sin ps'.

(** ** Concrete inputs *)

(** Stand-ins for [math.cos] and [math.sin] that are exact at yaw 0. *)
Definition cos_at_0 (_ : Q) : Q := 1.

Definition sin_at_0 (_ : Q) : Q := 0.

Definition no_noise (_ : nat) : Q * Q := (0, 0).

Definition rand_half (_ : nat) : Q := 1 # 2.

(** Random draws that differ between the first two slots. *)
Definition rand_two (i : nat) : Q :=
  match i with
  | S O => 1 # 2
  | _ => 0
  end.

(** One observation: range 10, bearing 0, landmark id 0. *)
Definition one_observation : matrix := [[10]; [0]; [0]].

Definition step0 : step_input :=
  {| step_randn := no_noise; step_rand := rand_half;
     step_v := 1; step_omega := 1 # 10; step_z := one_observation |}.

(** The particles and the heap [main] starts from. *)
Definition initial : list Particle.t := fst (main_particles N_PARTICLE).

Definition initial_heap : heap := snd (main_particles N_PARTICLE).

Definition with_weights (ws : nat -> float) (ps : list Particle.t) : list Particle.t :=
  imap (fun i p => Particle.set_w p (ws i)) ps.

(** All the weight on particle 0. *)
Definition dominant : list Particle.t :=
  with_weights (fun i => match i with O => Fin 1 | _ => Fin 0 end) initial.

(** Particle 0 at x = 7 with weight 0.019, particle 1 at x = 8 with
    weight 0.981, the others with weight 0. *)
Definition skewed : list Particle.t :=
  imap (fun i p =>
          match i with
          | O => Particle.mk (Fin (19 # 1000)) 7 0 0 (Particle.lm p) (Particle.lmP p)
          | S O => Particle.mk (Fin (981 # 1000)) 8 0 0 (Particle.lm p) (Particle.lmP p)
          | _ => Particle.set_w p (Fin 0)
          end) initial.

(** One infinite weight. *)
Definition inf_weight : list Particle.t :=
  with_weights (fun i => match i with O => PInf | _ => Fin (1 # 100) end) initial.

(** ** The simulated world *)

Definition MAX_RANGE : Q := 20.

Definition OFFSET_YAWRATE_NOISE : Q := 1 # 100.

(** [Qsim = np.diag([0.3, np.deg2rad(2.0)]) ** 2] and
    [Rsim = np.diag([0.5, np.deg2rad(10.0)]) ** 2] are only used through
    [Qsim[0, 0] ** 0.5], [Qsim[1, 1] ** 0.5], [Rsim[0, 0] ** 0.5] and
    [Rsim[1, 1] ** 0.5]: the square roots of the squares of the
    non-negative diagonal entries, that is the entries themselves. *)
Definition Qsim_sqrt_00 : Q := 3 # 10.

Definition Qsim_sqrt_11 : Q := deg2rad 2.

Definition Rsim_sqrt_00 : Q := 1 # 2.

Definition Rsim_sqrt_11 : Q := deg2rad 10.

(** [calc_input(time)] *)
Definition calc_input (time : Q) : matrix :=
  if Qle_bool time 3 then control_array 0 0 else control_array 1 (1 # 10).

(** [np.hstack((z, zi))] for a column [zi] with one entry per row of [z]. *)
Definition hstack_col (z : matrix) (zi : list Q) : matrix :=
  zip_with (fun row e => row ++ [e]) z zi.

Section World.

Variables cos sin : Q -> Q.
Variables hypot atan2 : Q -> Q -> Q.

(** The body of the landmark loop of [observation].  The two
    [np.random.randn()] drawn for landmark [i] are [randn_z i]. *)
Definition observe_step (randn_z : nat -> Q * Q) (xTrue RFID : matrix)
    (i : nat) (z : matrix) : res matrix :=
  let* lx := mget RFID i 0 in
  let* tx := mget xTrue 0 0 in
  let dx := lx - tx in
  let* ly := mget RFID i 1 in
  let* ty := mget xTrue 1 0 in
  let dy := ly - ty in
  let d := hypot dx dy in
  let* tyaw := mget xTrue 2 0 in
  let angle := pi_2_pi (atan2 dy dx - tyaw) in
  if Qle_bool d MAX_RANGE then
    let dn := d + fst (randn_z i) * Qsim_sqrt_00 in
    let anglen := angle + snd (randn_z i) * Qsim_sqrt_11 in
    ret (hstack_col z [dn; pi_2_pi anglen; Qnat i])
  else ret z.

(** [observation(xTrue, xd, u, RFID)]; the two draws added to the control
    are [randn_u]. *)
Definition observation (randn_z : nat -> Q * Q) (randn_u : Q * Q)
    (xTrue xd u RFID : matrix) : res (matrix * matrix * matrix * matrix) :=
  let* xTrue := motion_model cos sin xTrue u in
  let* z := for_range (length RFID) (observe_step randn_z xTrue RFID)
              (np_zeros 3 0) in
  let* u0 := mget u 0 0 in
  let ud1 := u0 + fst randn_u * Rsim_sqrt_00 in
  let* u1 := mget u 1 0 in
  let ud2 := u1 + snd randn_u * Rsim_sqrt_11 + OFFSET_YAWRATE_NOISE in
  let ud := control_array ud1 ud2 in
  let* xd := motion_model cos sin xd ud in
  ret (xTrue, z, xd, ud).

End World.

(** Landmark [i] of the table is within [MAX_RANGE] of the position
    [(tx, ty)]. *)
Definition in_range (hypot : Q -> Q -> Q) (tx ty : Q) (RFID : matrix)
    (i : nat) : bool :=
  match RFID !! i with
  | Some [lx; ly] => Qle_bool (hypot (lx - tx) (ly - ty)) MAX_RANGE
  | _ => false
  end.

(** Two particles with the same pose and the same landmark arrays. *)
Definition same_state (p q : Particle.t) : Prop :=
  Particle.x p = Particle.x q /\ Particle.y p = Particle.y q
  /\ Particle.yaw p = Particle.yaw q
  /\ Particle.lm p = Particle.lm q /\ Particle.lmP p = Particle.lmP q.

(** Particle [p'] is particle [p] moved by the control [(v, omega)] with
    the noise [(n1, n2)] of its own draw: the linear velocity receives
    [n1], the yaw rate [n2 * deg2rad 20]; weight and landmark arrays are
    those of [p]. *)
Definition predicted (cos sin : Q -> Q) (v omega : Q) (n : Q * Q)
    (p p' : Particle.t) : Prop :=
  Particle.w p' = Particle.w p
  /\ Particle.lm p' = Particle.lm p /\ Particle.lmP p' = Particle.lmP p
  /\ Particle.x p' == Particle.x p + DT * (v + fst n) * cos (Particle.yaw p)
  /\ Particle.y p' == Particle.y p + DT * (v + fst n) * sin (Particle.yaw p)
  /\ Particle.yaw p'
     == pi_2_pi (Particle.yaw p + DT * (omega + snd n * deg2rad 20)).

(** A stand-in for [math.hypot]: the sum of the two absolute values. *)
Definition hypot_l1 (a b : Q) : Q := Qabs a + Qabs b.

(** ** Rounded arithmetic *)

(** The integer nearest to [x], ties going to the even one. *)
Definition rne (x : Q) : Z :=
  let f := Qfloor x in
  match Qcompare (x - inject_Z f) (1 # 2) with
  | Lt => f
  | Gt => (f + 1)%Z
  | Eq => if Z.even f then f else (f + 1)%Z
  end.

(** The integer part of the binary logarithm of a positive rational. *)
Definition ilog2 (q : Q) : Z :=
  let l := (Z.log2 (Qnum q) - Z.log2 (Zpos (Qden q)))%Z in
  if Qle_bool (Qpower 2 l) q then l else (l - 1)%Z.

(** A positive rational rounded to 53 significant bits. *)
Definition round_pos (q : Q) : Q :=
  let s := (ilog2 q - 52)%Z in inject_Z (rne (q / Qpower 2 s)) * Qpower 2 s.

(** Rounding to the nearest binary64 number, ties to even.  The exponent
    is not bounded: there is no overflow and no underflow, so this is the
    IEEE rounding for magnitudes from 2^-1022 up to 2^1024. *)
Definition round64 (q : Q) : Q :=
  Qred match q ?= 0 with
       | Eq => 0
       | Gt => round_pos q
       | Lt => - round_pos (- q)
       end.

(** What the properties below need of a rounding: it is monotone and it
    leaves the numbers 0, pi, -pi and 2 pi of the format as they are. *)
Record rounding (rnd : Q -> Q) : Prop := {
  rnd_mono : forall x y, x <= y -> rnd x <= rnd y;
  rnd_0 : rnd 0 == 0;
  rnd_pi : rnd math_pi == math_pi;
  rnd_opp_pi : rnd (- math_pi) == - math_pi;
  rnd_2pi : rnd (2 * math_pi) == 2 * math_pi
}.

(** The functions whose results the rounding of floats can change in a
    way a property notices: the angle normalisation and everything that
    computes with the weights.  Each arithmetic operation is followed by
    the rounding [rnd]; comparisons are exact.  The poses that
    [predict_particles] computes do not enter the weights and are left to
    the exact functions above. *)
Module Rounded.

Section Rounding.

Variable rnd : Q -> Q.

Definition fround (a : float) : float :=
  match a with
  | Fin q => Fin (rnd q)
  | _ => a
  end.

Definition fadd (a b : float) : float := fround (PyFloat.fadd a b).

Definition fsub (a b : float) : float := fround (PyFloat.fsub a b).

Definition fmul (a b : float) : float := fround (PyFloat.fmul a b).

Definition np_div (a b : float) : float := fround (PyFloat.np_div a b).

Definition py_div (a b : float) : res float :=
  let* v := PyFloat.py_div a b in ret (fround v).

(** [sum(ws)]: the additions from left to right, each of them rounded. *)
Definition fsum (ws : list float) : float := fold_left fadd ws (Fin 0).

(** The inner product, its terms added from left to right. *)
Definition fdot (a b : list float) : float := fsum (zip_with fmul a b).

Fixpoint cumsum_from (acc : float) (ws : list float) : list float :=
  match ws with
  | [] => []
  | w :: r => fadd acc w :: cumsum_from (fadd acc w) r
  end.

(** [np.cumsum(ws)] *)
Definition np_cumsum (ws : list float) : list float :=
  match ws with
  | [] => []
  | w :: r => w :: cumsum_from w r
  end.

(** [1.0 / N_PARTICLE] and [NTH = N_PARTICLE / 1.5] as floats. *)
Definition inv_N (N : nat) : float := np_div (Fin 1) (Fin (Qnat N)).

Definition NTH (N : nat) : float := np_div (Fin (Qnat N)) (Fin (3 # 2)).

(** The integer part of [z], towards zero. *)
Definition Qtrunc (z : Q) : Z := if Qle_bool 0 z then Qfloor z else Qceiling z.

(** [fmod(x, y)]: the remainder with the sign of [x]; it is a number of
    the format and is not rounded. *)
Definition fmod (x y : Q) : Q := x - inject_Z (Qtrunc (x / y)) * y.

(** Python's and numpy's [x % y] on floats, for a positive [y]: [fmod],
    and [mod += y] when the remainder is negative. *)
Definition py_mod (x y : Q) : Q :=
  let m := fmod x y in
  if Qle_bool 0 m then m else rnd (m + y).

(** [pi_2_pi(angle)]; [2 * math.pi] is a number of the format. *)
Definition pi_2_pi (angle : Q) : Q :=
  rnd (py_mod (rnd (angle + math_pi)) (2 * math_pi) - math_pi).

(** [normalize_weight(particles)] *)
Definition normalize_weight (N : nat) (particles : list Particle.t)
    : res (list Particle.t) :=
  let sumw := fsum (map Particle.w particles) in
  let divide := for_range N (fun i ps =>
      let* p := index ps i in
      let* v := py_div (Particle.w p) sumw in
      ret (<[i := Particle.set_w p v]> ps)) particles in
  match divide with
  | inl ZeroDivisionError =>
      for_range N (fun i ps =>
        let* p := index ps i in
        ret (<[i := Particle.set_w p (inv_N N)]> ps)) particles
  | r => r
  end.

(** [Neff = 1.0 / np.matmul(pw, pw.T)] *)
Definition Neff (pw : list float) : float := np_div (Fin 1) (fdot pw pw).

(** [base = np.cumsum(pw * 0.0 + 1 / N_PARTICLE) - 1 / N_PARTICLE] *)
Definition resample_base (N : nat) (pw : list float) : list float :=
  map (fun c => fsub c (inv_N N))
      (np_cumsum (map (fun v => fadd (fmul v (Fin 0)) (inv_N N)) pw)).

(** [resampleid = base + np.random.rand(base.shape[0]) / N_PARTICLE] *)
Definition resampleid (N : nat) (rand : nat -> Q) (pw : list float) : list float :=
  imap (fun i b => fadd b (np_div (Fin (rand i)) (Fin (Qnat N))))
       (resample_base N pw).

(** The body of the loop that overwrites the particles. *)
Definition copy_step (N : nat) (inds : list nat) (i : nat)
    (particles : list Particle.t) : res (list Particle.t) :=
  let* j := index inds i in
  let* dst := index particles i in
  let* src := index particles j in
  ret (<[i := Particle.mk (inv_N N) (Particle.x src) (Particle.y src)
                (Particle.yaw src) (Particle.lm src) (Particle.lmP src)]> particles).

(** [resampling(particles)] *)
Definition resampling (N : nat) (rand : nat -> Q) (particles : list Particle.t)
    : res (list Particle.t) :=
  let* particles := normalize_weight N particles in
  let* pw := weights N particles in
  if flt (Neff pw) (NTH N) then
    let wcum := np_cumsum pw in
    let* inds := select_inds N wcum (resampleid N rand pw) in
    for_range (length inds) (copy_step N inds) particles
  else ret particles.

(** [fast_slam1(particles, u, z)] *)
Definition fast_slam1 (N : nat) (cos sin : Q -> Q) (randn : nat -> Q * Q)
    (rand : nat -> Q) (particles : list Particle.t) (u z : matrix)
    : res (list Particle.t) :=
  let* particles := predict_particles N cos sin randn particles u in
  resampling N rand particles.

(** The particles [main] constructs: [Particle.__init__] stores the float
    [1.0 / N_PARTICLE] in [w]. *)
Definition main_particles (N : nat) : list Particle.t :=
  map (fun p => Particle.set_w p (inv_N N)) (fst (main_particles N)).

(** The particle sets the driver can reach from the set it constructs. *)
Inductive reachable (N : nat) (cos sin : Q -> Q) : list Particle.t -> Prop :=
  | reachable_init : reachable N cos sin (main_particles N)
  | reachable_step (s : step_input) (ps ps' : list Particle.t) :
      reachable N cos sin ps ->
      fast_slam1 N cos sin (step_randn s) (step_rand s) ps
        (control_array (step_v s) (step_omega s)) (step_z s) = inr ps' ->
      reachable N cos sin ps'.

(** What [normalize_weight] makes of the weight [w] when all the [N]
    weights are [w]. *)
Definition renormalised (N : nat) (w : float) : float :=
  match py_div w (fsum (replicate N w)) with
  | inr v => v
  | inl _ => inv_N N
  end.

End Rounding.

End Rounded.

(** Every weight of the set is [w]. *)
Definition all_weights (w : float) (particles : list Particle.t) : Prop :=
  Forall (fun p => Particle.w p = w) particles.



(** The index at which the scan for output slot [i] starts: 0 for the
    first slot, and then the index selected for the slot before. *)
Definition scan_start (inds : list nat) (i : nat) : nat :=
  match i with
  | O => 0%nat
  | S i' => default 0%nat (inds !! i')
  end.

(** The binary64 number just below [-math.pi]. *)
Definition below_neg_pi : Q := - math_pi - (1 # 2251799813685248).

(** Random draws with the largest binary64 number below 1 in the last
    slot. *)
Definition rand_last (i : nat) : Q :=
  if Nat.eqb i 99 then 1 - (1 # 9007199254740992) else 1 # 2.

(** Random draws with the largest binary64 number below 1 in slot 23 and
    0 in slot 24. *)
Definition rand_drop (i : nat) : Q :=
  if Nat.eqb i 23 then 1 - (1 # 9007199254740992)
  else if Nat.eqb i 24 then 0 else 1 # 2.

(** Particle 0 with the weight 0.24000000000000005, the binary64 base of
    slot 24, particle 1 with the rest of 1, the others with weight 0. *)
Definition two_weights : list Particle.t :=
  with_weights (fun i => match i with
                         | O => Fin (4323455642275677 # 18014398509481984)
                         | S O => Fin (3422735716801577 # 4503599627370496)
                         | _ => Fin 0
                         end) initial.

(** * Properties *)

(** ** Exceptions and loops *)

Lemma index_lookup {A : Type} (l : list A) (i : nat) (a : A) :
  l !! i = Some a -> index l i = inr a.
Proof. unfold index. intros ->. reflexivity. Qed.

Lemma index_lt {A : Type} (l : list A) (i : nat) :
  (i < length l)%nat -> exists a, l !! i = Some a /\ index l i = inr a.
Proof.
  intros H. destruct (lookup_lt_is_Some_2 l i H) as [a Ha].
  exists a. split; [exact Ha | exact (index_lookup _ _ _ Ha)].
Qed.

(** A loop whose body keeps an invariant, and cannot raise while it
    holds, runs to its end and establishes the invariant there. *)
Lemma for_range_from_inv {S : Type} (I : nat -> S -> Prop)
    (body : nat -> S -> res S) (n start : nat) (s : S) :
  I start s ->
  (forall i t, (start <= i < start + n)%nat -> I i t ->
     exists t', body i t = inr t' /\ I (Datatypes.S i) t') ->
  exists s', for_range_from start n body s = inr s' /\ I (start + n)%nat s'.
Proof.
  revert start s. induction n as [| n IH]; intros start s H0 Hstep.
  - exists s. rewrite Nat.add_0_r. split; [reflexivity | exact H0].
  - destruct (Hstep start s ltac:(lia) H0) as (t & Hb & Ht).
    destruct (IH (Datatypes.S start) t Ht) as (s' & Hr & Hs').
    + intros i u Hi. apply Hstep. lia.
    + exists s'. simpl. rewrite Hb. simpl.
      replace (start + Datatypes.S n)%nat with (Datatypes.S start + n)%nat by lia.
      split; assumption.
Qed.

Lemma for_range_inv {S : Type} (I : nat -> S -> Prop)
    (body : nat -> S -> res S) (n : nat) (s : S) :
  I 0%nat s ->
  (forall i t, (i < n)%nat -> I i t ->
     exists t', body i t = inr t' /\ I (Datatypes.S i) t') ->
  exists s', for_range n body s = inr s' /\ I n s'.
Proof.
  intros H0 Hstep.
  apply (for_range_from_inv I body n 0 s H0).
  intros i t Hi. apply Hstep. lia.
Qed.

(** ** Lists updated slot by slot *)

Lemma lookup_map_take_drop {A : Type} (f : A -> A) (l : list A) (i : nat) :
  (map f (take i l) ++ drop i l) !! i = l !! i.
Proof.
  destruct (decide (i < length l)%nat) as [Hi | Hi].
  - rewrite lookup_app_r; rewrite length_map, length_take; [| lia].
    replace (i - i `min` length l)%nat with 0%nat by lia.
    rewrite lookup_drop. f_equal. lia.
  - rewrite (lookup_ge_None_2 l i) by lia.
    apply lookup_ge_None_2.
    rewrite length_app, length_map, length_take, length_drop. lia.
Qed.

Lemma insert_map_take_drop {A : Type} (f : A -> A) (l : list A) (i : nat) (a : A) :
  l !! i = Some a ->
  <[i := f a]> (map f (take i l) ++ drop i l)
  = map f (take (Datatypes.S i) l) ++ drop (Datatypes.S i) l.
Proof.
  intros Ha. pose proof (lookup_lt_Some _ _ _ Ha) as Hi.
  rewrite (take_S_r _ _ _ Ha), map_app, <- app_assoc. simpl.
  rewrite (drop_S _ _ _ Ha).
  rewrite insert_app_r_alt; rewrite length_map, length_take; [| lia].
  replace (i - i `min` length l)%nat with 0%nat by lia.
  reflexivity.
Qed.

(** ** Weight normalisation *)

Lemma py_div_nonzero (a b : float) :
  is_zero b = false -> py_div a b = inr (np_div a b).
Proof.
  unfold py_div, is_zero. destruct b; try reflexivity.
  intros ->. reflexivity.
Qed.

Lemma py_div_zero (a b : float) :
  is_zero b = true -> py_div a b = inl ZeroDivisionError.
Proof.
  unfold py_div, is_zero. destruct b; try discriminate.
  intros ->. reflexivity.
Qed.

(** A loop that rewrites every slot of a list of length [n] with a
    function of the particle found there. *)
Lemma for_range_slots (f : Particle.t -> Particle.t)
    (body : nat -> list Particle.t -> res (list Particle.t))
    (n : nat) (l : list Particle.t) :
  length l = n ->
  (forall i t a, t !! i = Some a -> body i t = inr (<[i := f a]> t)) ->
  for_range n body l = inr (map f l).
Proof.
  intros Hlen Hbody.
  destruct (for_range_inv
              (fun i t => t = map f (take i l) ++ drop i l) body n l)
    as (t & Hrun & Ht).
  - simpl. rewrite drop_0. reflexivity.
  - intros i t Hi ->.
    destruct (lookup_lt_is_Some_2 l i ltac:(lia)) as [a Ha].
    exists (map f (take (S i) l) ++ drop (S i) l). split; [| reflexivity].
    rewrite (Hbody i _ a).
    + rewrite (insert_map_take_drop f l i a Ha). reflexivity.
    + rewrite lookup_map_take_drop. exact Ha.
  - rewrite Hrun, Ht. subst n.
    rewrite firstn_all, drop_all, app_nil_r. reflexivity.
Qed.

Lemma normalize_weight_divide (N : nat) (ps : list Particle.t) :
  length ps = N ->
  is_zero (fsum (map Particle.w ps)) = false ->
  normalize_weight N ps
  = inr (map (fun p => Particle.set_w p
                (np_div (Particle.w p) (fsum (map Particle.w ps)))) ps).
Proof.
  intros Hlen Hnz. unfold normalize_weight.
  rewrite (for_range_slots
             (fun p => Particle.set_w p
                (np_div (Particle.w p) (fsum (map Particle.w ps))))).
  - reflexivity.
  - exact Hlen.
  - intros i t a Ha. rewrite (index_lookup _ _ _ Ha). simpl.
    rewrite (py_div_nonzero _ _ Hnz). reflexivity.
Qed.

Lemma normalize_weight_zero (N : nat) (ps : list Particle.t) :
  length ps = N ->
  is_zero (fsum (map Particle.w ps)) = true ->
  normalize_weight N ps
  = inr (map (fun p => Particle.set_w p (Fin (inv_N N))) ps).
Proof.
  intros Hlen Hz. unfold normalize_weight.
  assert (Hreset :
    for_range N (fun i ps0 =>
        let* p := index ps0 i in
        ret (<[i := Particle.set_w p (Fin (inv_N N))]> ps0)) ps
    = inr (map (fun p => Particle.set_w p (Fin (inv_N N))) ps)).
  { apply for_range_slots; [exact Hlen |].
    intros i t a Ha. rewrite (index_lookup _ _ _ Ha). reflexivity. }
  destruct N as [| n].
  - destruct ps; [reflexivity | discriminate].
  - destruct ps as [| p ps']; [discriminate |].
    unfold for_range at 1. simpl for_range_from.
    unfold index at 1. simpl lookup. simpl bind.
    rewrite (py_div_zero _ _ Hz). simpl bind.
    exact Hreset.
Qed.

(** Either way [normalize_weight] returns, and keeps every field but [w]. *)
Lemma normalize_weight_total (N : nat) (ps : list Particle.t) :
  length ps = N ->
  exists f, normalize_weight N ps = inr (map (fun p => Particle.set_w p (f p)) ps).
Proof.
  intros Hlen. destruct (is_zero (fsum (map Particle.w ps))) eqn:Hz.
  - eexists (fun _ => _). apply (normalize_weight_zero N ps Hlen Hz).
  - eexists (fun p => _). apply (normalize_weight_divide N ps Hlen Hz).
Qed.

Lemma weights_spec (N : nat) (ps : list Particle.t) :
  length ps = N -> weights N ps = inr (map Particle.w ps).
Proof.
  intros Hlen. unfold weights.
  destruct (for_range_inv
              (fun i pw => pw = map Particle.w (take i ps))
              (fun i pw => let* p := index ps i in ret (pw ++ [Particle.w p]))
              N []) as (pw & Hrun & Hpw).
  - reflexivity.
  - intros i t Hi ->.
    destruct (index_lt ps i ltac:(lia)) as (a & Ha & Hidx).
    rewrite Hidx. simpl. eexists; split; [reflexivity |].
    rewrite (take_S_r _ _ _ Ha), map_app. reflexivity.
  - rewrite Hrun, Hpw. subst N. rewrite firstn_all. reflexivity.
Qed.

(** ** Sums of finite floats *)

Lemma Qlt_bool_iff (p q : Q) : Qlt_bool p q = true <-> p < q.
Proof.
  unfold Qlt_bool. rewrite negb_true_iff.
  split.
  - intros H. apply Qnot_le_lt. intros Hle.
    apply Qle_bool_iff in Hle. congruence.
  - intros H. destruct (Qle_bool q p) eqn:E; [| reflexivity].
    apply Qle_bool_iff in E. lra.
Qed.

Lemma Qlt_bool_false (p q : Q) : Qlt_bool p q = false <-> q <= p.
Proof.
  unfold Qlt_bool. rewrite negb_false_iff. apply Qle_bool_iff.
Qed.

Lemma Qeq_bool_false (q : Q) : ~ q == 0 -> Qeq_bool q 0 = false.
Proof.
  intros H. destruct (Qeq_bool q 0) eqn:E; [| reflexivity].
  apply Qeq_bool_iff in E. contradiction.
Qed.

Lemma fold_left_Qplus (qs : list Q) (a : Q) :
  fold_left Qplus qs a == a + Qsum qs.
Proof.
  revert a. induction qs as [| q qs IH]; intros a; simpl.
  - lra.
  - rewrite IH. lra.
Qed.

Lemma fold_fadd_Fin (qs : list Q) (a : Q) :
  fold_left fadd (map Fin qs) (Fin a) = Fin (fold_left Qplus qs a).
Proof.
  revert a. induction qs as [| q qs IH]; intros a; simpl.
  - reflexivity.
  - apply IH.
Qed.

Lemma fsum_Fin (qs : list Q) :
  fsum (map Fin qs) = Fin (fold_left Qplus qs 0).
Proof. apply fold_fadd_Fin. Qed.

Lemma fadd_finite (a b : float) : finite (fadd a b) -> finite a /\ finite b.
Proof. destruct a, b; simpl; tauto. Qed.

(** A finite sum has finite terms only. *)
Lemma fold_fadd_finite (ws : list float) (a : float) :
  finite (fold_left fadd ws a) -> finite a /\ exists qs, ws = map Fin qs.
Proof.
  revert a. induction ws as [| v ws IH]; intros a; simpl.
  - intros H. split; [exact H | exists []; reflexivity].
  - intros H. destruct (IH _ H) as (Hav & qs & ->).
    destruct (fadd_finite _ _ Hav) as [Ha Hv].
    split; [exact Ha |].
    destruct v as [q | | |]; try contradiction.
    exists (q :: qs). reflexivity.
Qed.

Lemma fsum_finite (ws : list float) (s : Q) :
  fsum ws = Fin s -> exists qs, ws = map Fin qs.
Proof.
  intros H. apply (fold_fadd_finite ws (Fin 0)).
  unfold fsum in H. rewrite H. exact I.
Qed.

Lemma Qsum_scale (qs : list Q) (c : Q) :
  Qsum (map (fun q => q / c) qs) == Qsum qs / c.
Proof.
  induction qs as [| q qs IH]; simpl.
  - unfold Qdiv. lra.
  - rewrite IH. unfold Qdiv. lra.
Qed.

Lemma Qnat_S (n : nat) : Qnat (S n) == Qnat n + 1.
Proof.
  unfold Qnat. rewrite Nat2Z.inj_succ, <- Z.add_1_r, inject_Z_plus.
  reflexivity.
Qed.

Lemma Qsum_const (qs : list Q) (c : Q) :
  Forall (fun q => q == c) qs -> Qsum qs == Qnat (length qs) * c.
Proof.
  induction 1 as [| q qs Hq _ IH]; simpl length; simpl Qsum.
  - change (Qnat 0) with 0. ring.
  - rewrite IH, Hq, Qnat_S. ring.
Qed.

Lemma Qnat_pos (n : nat) : (1 <= n)%nat -> 0 < Qnat n.
Proof.
  intros H. unfold Qnat. change 0 with (inject_Z 0).
  rewrite <- Zlt_Qlt. lia.
Qed.

Lemma Qnat_lt (i n : nat) : (i < n)%nat -> Qnat i + 1 <= Qnat n.
Proof.
  intros H. unfold Qnat. change 1 with (inject_Z 1).
  rewrite <- inject_Z_plus, <- Zle_Qle. lia.
Qed.

Lemma inv_N_mult (N : nat) : (1 <= N)%nat -> Qnat N * inv_N N == 1.
Proof.
  intros H. pose proof (Qnat_pos N H). unfold inv_N. field. lra.
Qed.

(** The weights of a particle set after a division by a non-zero finite
    sum. *)
Lemma map_w_set_w (g : Particle.t -> float) (ps : list Particle.t) :
  map Particle.w (map (fun p => Particle.set_w p (g p)) ps) = map g ps.
Proof.
  rewrite map_map. reflexivity.
Qed.

Lemma np_div_Fin (p q : Q) : ~ q == 0 -> np_div (Fin p) (Fin q) = Fin (p / q).
Proof.
  intros H. simpl. rewrite (Qeq_bool_false q H). reflexivity.
Qed.

Lemma zip_with_fmul_Fin (qs rs : list Q) :
  zip_with fmul (map Fin qs) (map Fin rs) = map Fin (zip_with Qmult qs rs).
Proof.
  revert rs. induction qs as [| q qs IH]; intros [| r rs]; simpl;
    try reflexivity.
  rewrite IH. reflexivity.
Qed.

Lemma fdot_Fin (qs : list Q) :
  exists d, fdot (map Fin qs) (map Fin qs) = Fin d
            /\ d == Qsum (zip_with Qmult qs qs).
Proof.
  unfold fdot. rewrite zip_with_fmul_Fin, fsum_Fin.
  eexists; split; [reflexivity |].
  rewrite fold_left_Qplus. lra.
Qed.

Lemma Qsum_squares_const (qs : list Q) (c : Q) :
  Forall (fun q => q == c) qs ->
  Qsum (zip_with Qmult qs qs) == Qnat (length qs) * (c * c).
Proof.
  induction 1 as [| q qs Hq _ IH]; simpl length; simpl Qsum.
  - change (Qnat 0) with 0. ring.
  - simpl. rewrite IH, Hq, Qnat_S. ring.
Qed.

(** With every weight at 1/N the effective particle number is N, which
    is not below the threshold N / 1.5. *)
Lemma Neff_uniform (N : nat) (qs : list Q) :
  (1 <= N)%nat -> length qs = N ->
  Forall (fun q => q == inv_N N) qs ->
  feq (Neff (map Fin qs)) (Fin (Qnat N))
  /\ flt (Neff (map Fin qs)) (Fin (NTH N)) = false.
Proof.
  intros HN Hlen Hqs. pose proof (Qnat_pos N HN) as Hpos.
  destruct (fdot_Fin qs) as (d & Hd & Hdq).
  rewrite (Qsum_squares_const qs _ Hqs), Hlen in Hdq.
  assert (Hdv : d == inv_N N).
  { rewrite Hdq. unfold inv_N. field. lra. }
  assert (Hinv : 0 < inv_N N).
  { unfold inv_N. apply Qlt_shift_div_l; lra. }
  assert (Hdn : ~ d == 0) by lra.
  unfold Neff. rewrite Hd, (np_div_Fin 1 d Hdn).
  assert (Hval : 1 / d == Qnat N).
  { rewrite Hdv. unfold inv_N. field. lra. }
  split.
  - simpl. exact Hval.
  - simpl. apply Qlt_bool_false. rewrite Hval. unfold NTH.
    apply Qle_shift_div_r; lra.
Qed.

(** ** Resampling when the branch is not taken *)

Lemma normalize_weight_length (N : nat) (ps ps1 : list Particle.t) :
  length ps = N -> normalize_weight N ps = inr ps1 -> length ps1 = N.
Proof.
  intros Hlen H. destruct (normalize_weight_total N ps Hlen) as (f & Hf).
  rewrite Hf in H. injection H as <-. rewrite length_map. exact Hlen.
Qed.

Lemma resampling_skip (N : nat) (rand : nat -> Q) (ps ps1 : list Particle.t) :
  length ps = N ->
  normalize_weight N ps = inr ps1 ->
  flt (Neff (map Particle.w ps1)) (Fin (NTH N)) = false ->
  resampling N rand ps = inr ps1.
Proof.
  intros Hlen Hn Hf. unfold resampling. rewrite Hn. simpl.
  rewrite (weights_spec N ps1 (normalize_weight_length N ps ps1 Hlen Hn)).
  simpl. rewrite Hf. reflexivity.
Qed.

(** Finite weights stay finite under normalisation and then sum to 1. *)
Lemma normalize_weight_finite (N : nat) (ps : list Particle.t) (qs : list Q) :
  (1 <= N)%nat -> length ps = N ->
  map Particle.w ps = map Fin qs ->
  exists (ps1 : list Particle.t) (qs1 : list Q),
    normalize_weight N ps = inr ps1
    /\ map Particle.w ps1 = map Fin qs1
    /\ length qs1 = N
    /\ Qsum qs1 == 1.
Proof.
  intros HN Hlen Hw.
  assert (Hqlen : length qs = N).
  { rewrite <- Hlen, <- (length_map Particle.w ps), Hw, length_map. reflexivity. }
  assert (Hsum : fsum (map Particle.w ps) = Fin (fold_left Qplus qs 0)).
  { rewrite Hw. apply fsum_Fin. }
  destruct (Qeq_bool (fold_left Qplus qs 0) 0) eqn:Hz.
  - exists (map (fun p => Particle.set_w p (Fin (inv_N N))) ps),
           (map (fun _ => inv_N N) qs).
    split; [| split; [| split]].
    + apply normalize_weight_zero; [exact Hlen |]. rewrite Hsum. exact Hz.
    + rewrite map_w_set_w.
      transitivity (map (fun _ : float => Fin (inv_N N)) (map Particle.w ps)).
      * rewrite map_map. reflexivity.
      * rewrite Hw, !map_map. reflexivity.
    + rewrite length_map. exact Hqlen.
    + rewrite (Qsum_const _ (inv_N N)).
      * rewrite length_map, Hqlen. apply inv_N_mult. exact HN.
      * apply Forall_forall. intros q Hq.
        apply list_elem_of_In, in_map_iff in Hq. destruct Hq as (_ & <- & _).
        reflexivity.
  - assert (Hnz : ~ fold_left Qplus qs 0 == 0).
    { intros E. apply Qeq_bool_iff in E. congruence. }
    exists (map (fun p => Particle.set_w p
                   (np_div (Particle.w p) (fsum (map Particle.w ps)))) ps),
           (map (fun q => q / fold_left Qplus qs 0) qs).
    split; [| split; [| split]].
    + apply normalize_weight_divide; [exact Hlen |]. rewrite Hsum. exact Hz.
    + rewrite map_w_set_w, Hsum.
      transitivity (map (fun v => np_div v (Fin (fold_left Qplus qs 0)))
                        (map Particle.w ps)).
      * rewrite map_map. reflexivity.
      * rewrite Hw, !map_map. apply map_ext. intros q.
        apply np_div_Fin. exact Hnz.
    + rewrite length_map. exact Hqlen.
    + rewrite Qsum_scale, fold_left_Qplus. rewrite fold_left_Qplus in Hnz.
      field. lra.
Qed.

(** ** The motion model and the prediction step *)

Lemma Qmod_range (a b : Q) : 0 < b -> 0 <= Qmod a b /\ Qmod a b < b.
Proof.
  intros Hb. unfold Qmod.
  pose proof (Qfloor_le (a / b)) as Hlo.
  pose proof (Qlt_floor (a / b)) as Hhi.
  rewrite inject_Z_plus in Hhi. change (inject_Z 1) with 1 in Hhi.
  assert (Ha : a == (a / b) * b) by (field; lra).
  set (f := inject_Z (Qfloor (a / b))) in *.
  set (d := a / b) in *.
  split.
  - assert (f * b <= d * b) by (apply Qmult_le_compat_r; lra). lra.
  - assert (d * b < (f + 1) * b) by (apply Qmult_lt_compat_r; lra). lra.
Qed.

Lemma pi_2_pi_comp (a b : Q) : a == b -> pi_2_pi a == pi_2_pi b.
Proof.
  intros H. unfold pi_2_pi, Qmod.
  rewrite (Qfloor_comp ((a + math_pi) / (2 * math_pi))
                       ((b + math_pi) / (2 * math_pi))).
  - rewrite H. reflexivity.
  - rewrite H. reflexivity.
Qed.

Ltac run_arrays :=
  cbv [pose_array control_array mget mset index bind ret matmul madd transpose
       rectangular ncols forallb length Nat.eqb andb column dot zip_with map
       seq nth fold_left lookup list_lookup list_insert insert
       broadcast_dim stretch replicate R_sqrt R_diag fst snd].

Lemma motion_model_pose (cos sin : Q -> Q) (vx vy vyaw v omega : Q) :
  exists vx' vy' vyaw',
    motion_model cos sin (pose_array vx vy vyaw) (control_array v omega)
    = inr (pose_array vx' vy' vyaw')
    /\ vx' == vx + DT * v * cos vyaw
    /\ vy' == vy + DT * v * sin vyaw
    /\ vyaw' == pi_2_pi (vyaw + DT * omega).
Proof.
  do 3 eexists. split.
  - unfold motion_model. run_arrays. reflexivity.
  - split; [ring | split; [ring |]].
    apply pi_2_pi_comp. ring.
Qed.

Lemma predict_step_ok (cos sin : Q -> Q) (randn : nat -> Q * Q) (v omega : Q)
    (i : nat) (ps : list Particle.t) (p : Particle.t) :
  ps !! i = Some p ->
  exists vx vy vyaw,
    predict_step cos sin randn (control_array v omega) i ps
    = inr (<[i := Particle.set_pose p vx vy vyaw]> ps).
Proof.
  intros Hp. unfold predict_step.
  rewrite (index_lookup _ _ _ Hp). cbn [bind].
  destruct (randn i) as [n1 n2]. run_arrays.
  match goal with
  | |- context [motion_model cos sin [[?a]; [?b]; [?c]] [[?d]; [?e]]] =>
      destruct (motion_model_pose cos sin a b c d e) as (vx & vy & vyaw & Hm & _)
  end.
  unfold pose_array, control_array in Hm. rewrite Hm.
  exists vx, vy, vyaw. reflexivity.
Qed.

(** Prediction moves the poses only: it returns, and the number of
    particles, their weights and their landmark arrays are as before. *)
Lemma predict_particles_ok (N : nat) (cos sin : Q -> Q) (randn : nat -> Q * Q)
    (v omega : Q) (ps : list Particle.t) :
  length ps = N ->
  exists ps',
    predict_particles N cos sin randn ps (control_array v omega) = inr ps'
    /\ length ps' = N
    /\ map Particle.w ps' = map Particle.w ps.
Proof.
  intros Hlen. unfold predict_particles.
  destruct (for_range_inv
              (fun (_ : nat) t =>
                 length t = N /\ map Particle.w t = map Particle.w ps)
              (predict_step cos sin randn (control_array v omega)) N ps)
    as (ps' & Hrun & Hl & Hw).
  - split; [exact Hlen | reflexivity].
  - intros i t Hi [Hl Hw].
    destruct (lookup_lt_is_Some_2 t i ltac:(lia)) as [p Hp].
    destruct (predict_step_ok cos sin randn v omega i t p Hp)
      as (vx & vy & vyaw & Hs).
    eexists. split; [exact Hs |]. split.
    + rewrite length_insert. exact Hl.
    + rewrite <- Hw. rewrite list_fmap_insert. apply list_insert_id.
      rewrite list_lookup_fmap, Hp. reflexivity.
  - exists ps'. auto.
Qed.

(** ** The index scan of the resampler *)

(** The [while] loop returns, never moves left, stops at the last index at
    the latest, has passed only entries below the target, and, when it
    stops early, stops at an entry that is not below the target. *)
Lemma scan_from_spec (fuel : nat) (wcum ids : list float) (ip : nat)
    (t : float) (ind : nat) :
  ids !! ip = Some t ->
  (length wcum - 1 - ind <= fuel)%nat ->
  exists j,
    scan_from fuel wcum ids ip ind = inr j
    /\ (ind <= j)%nat
    /\ (j <= length wcum - 1 \/ j = ind)%nat
    /\ (forall k, (ind <= k < j)%nat ->
          exists c, wcum !! k = Some c /\ fgt t c = true)
    /\ ((j < length wcum - 1)%nat ->
          exists c, wcum !! j = Some c /\ fgt t c = false).
Proof.
  intros Ht. revert ind. induction fuel as [| fuel IH]; intros ind Hfuel.
  - exists ind. simpl.
    refine (conj eq_refl (conj _ (conj _ (conj _ _)))); try lia; intros; lia.
  - simpl. destruct (ind <? length wcum - 1)%nat eqn:Hlt.
    + apply Nat.ltb_lt in Hlt.
      rewrite (index_lookup _ _ _ Ht). cbn [bind].
      destruct (index_lt wcum ind ltac:(lia)) as (c & Hc & Hidx).
      rewrite Hidx. cbn [bind]. destruct (fgt t c) eqn:Hgt.
      * destruct (IH (S ind) ltac:(lia)) as (j & Hj & Hle & Hmax & Hpass & Hstop).
        exists j.
        refine (conj Hj (conj _ (conj _ (conj _ Hstop)))); try lia.
        intros k Hk. destruct (decide (k = ind)) as [-> | Hne].
        -- exists c. split; assumption.
        -- apply Hpass. lia.
      * exists ind.
        refine (conj eq_refl (conj _ (conj _ (conj _ _)))); try lia.
        intros _. exists c. split; assumption.
    + apply Nat.ltb_ge in Hlt.
      exists ind.
      refine (conj eq_refl (conj _ (conj _ (conj _ _)))); try lia; intros; lia.
Qed.

Lemma scan_spec (wcum ids : list float) (ip : nat) (t : float) (ind : nat) :
  ids !! ip = Some t ->
  exists j,
    scan wcum ids ip ind = inr j
    /\ (ind <= j)%nat
    /\ (j <= length wcum - 1 \/ j = ind)%nat
    /\ (forall k, (ind <= k < j)%nat ->
          exists c, wcum !! k = Some c /\ fgt t c = true)
    /\ ((j < length wcum - 1)%nat ->
          exists c, wcum !! j = Some c /\ fgt t c = false).
Proof. intros Ht. apply (scan_from_spec _ _ _ _ t); [exact Ht | lia]. Qed.

Lemma cumsum_from_length (acc : float) (ws : list float) :
  length (cumsum_from acc ws) = length ws.
Proof.
  revert acc. induction ws as [| v ws IH]; intros acc; simpl;
    [reflexivity | rewrite IH; reflexivity].
Qed.

Lemma np_cumsum_length (ws : list float) : length (np_cumsum ws) = length ws.
Proof.
  destruct ws as [| v ws]; simpl; [reflexivity |].
  rewrite cumsum_from_length. reflexivity.
Qed.

Lemma resampleid_length (N : nat) (rand : nat -> Q) (pw : list float) :
  length (resampleid N rand pw) = length pw.
Proof.
  unfold resampleid, resample_base.
  rewrite length_imap, length_map, np_cumsum_length, length_map. reflexivity.
Qed.

(** The selection loop returns one index per output slot, each of them an
    index of the particle set, whatever the weights are. *)
Lemma select_inds_ok (N : nat) (wcum ids : list float) :
  length wcum = N -> length ids = N ->
  exists inds,
    select_inds N wcum ids = inr inds
    /\ length inds = N
    /\ Forall (fun j => (j < N)%nat) inds.
Proof.
  intros Hw Hids. unfold select_inds.
  destruct (for_range_inv
              (fun ip (st : nat * list nat) =>
                 length (snd st) = ip /\ (fst st <= N - 1)%nat
                 /\ Forall (fun j => (j < N)%nat) (snd st))
              (fun ip (st : nat * list nat) =>
                 let* ind := scan wcum ids ip (fst st) in
                 ret (ind, snd st ++ [ind]))
              N (0%nat, [])) as (st & Hrun & Hl & _ & Hall).
  - simpl. repeat split; [lia | constructor].
  - intros ip [ind inds] Hip (Hl & Hind & Hall). simpl in Hl, Hind, Hall.
    destruct (lookup_lt_is_Some_2 ids ip ltac:(lia)) as [t Ht].
    cbn [fst snd].
    destruct (scan_spec wcum ids ip t ind Ht) as (j & Hj & Hle & Hmax & _).
    rewrite Hj. cbn [bind]. eexists. split; [reflexivity |].
    cbn [fst snd]. rewrite length_app. simpl. repeat split; try lia.
    apply Forall_app. split; [exact Hall |].
    constructor; [lia | constructor].
  - rewrite Hrun. exists (snd st). simpl. auto.
Qed.

(** ** The overwriting loop of the resampler *)

Lemma copy_step_ok (N : nat) (inds : list nat) (i j : nat)
    (ps : list Particle.t) (src : Particle.t) :
  inds !! i = Some j -> (i < length ps)%nat -> ps !! j = Some src ->
  copy_step N inds i ps
  = inr (<[i := Particle.mk (Fin (inv_N N)) (Particle.x src) (Particle.y src)
                  (Particle.yaw src) (Particle.lm src) (Particle.lmP src)]> ps).
Proof.
  intros Hj Hi Hsrc. unfold copy_step.
  rewrite (index_lookup _ _ _ Hj). cbn [bind].
  destruct (index_lt ps i Hi) as (dst & _ & Hdst).
  rewrite Hdst. cbn [bind].
  rewrite (index_lookup _ _ _ Hsrc). reflexivity.
Qed.

Lemma copy_loop_ok (N : nat) (inds : list nat) (ps : list Particle.t) :
  length ps = N -> length inds = N ->
  Forall (fun j => (j < N)%nat) inds ->
  exists ps',
    for_range (length inds) (copy_step N inds) ps = inr ps'
    /\ length ps' = N.
Proof.
  intros Hlen Hil Hall.
  destruct (for_range_inv
              (fun (_ : nat) (t : list Particle.t) => length t = N)
              (copy_step N inds) (length inds) ps) as (ps' & Hrun & Hl).
  - exact Hlen.
  - intros i t Hi Ht.
    destruct (lookup_lt_is_Some_2 inds i Hi) as [j Hj].
    assert (Hjn : (j < N)%nat).
    { rewrite Forall_forall in Hall. apply Hall.
      apply list_elem_of_lookup. eauto. }
    destruct (lookup_lt_is_Some_2 t j ltac:(lia)) as [src Hsrc].
    rewrite (copy_step_ok N inds i j t src Hj ltac:(lia) Hsrc).
    eexists. split; [reflexivity |]. rewrite length_insert. exact Ht.
  - exists ps'. auto.
Qed.

(** ** One step of the filter keeps the particle count *)

Lemma resampling_ok (N : nat) (rand : nat -> Q) (ps : list Particle.t) :
  length ps = N ->
  exists ps', resampling N rand ps = inr ps' /\ length ps' = N.
Proof.
  intros Hlen. unfold resampling.
  destruct (normalize_weight_total N ps Hlen) as (f & Hn).
  pose proof (normalize_weight_length N ps _ Hlen Hn) as Hl1.
  rewrite Hn. cbn [bind].
  rewrite (weights_spec N _ Hl1). cbn [bind].
  set (ps1 := map (fun p => Particle.set_w p (f p)) ps) in *.
  set (pw := map Particle.w ps1).
  assert (Hpw : length pw = N).
  { unfold pw. rewrite length_map. exact Hl1. }
  destruct (flt (Neff pw) (Fin (NTH N))).
  - destruct (select_inds_ok N (np_cumsum pw) (resampleid N rand pw))
      as (inds & Hs & Hil & Hall).
    + rewrite np_cumsum_length. exact Hpw.
    + rewrite resampleid_length. exact Hpw.
    + rewrite Hs. cbn [bind].
      apply copy_loop_ok; assumption.
  - exists ps1. split; [reflexivity | exact Hl1].
Qed.

Lemma fast_slam1_ok (N : nat) (cos sin : Q -> Q) (randn : nat -> Q * Q)
    (rand : nat -> Q) (ps : list Particle.t) (v omega : Q) (z : matrix) :
  length ps = N ->
  exists ps',
    fast_slam1 N cos sin randn rand ps (control_array v omega) z = inr ps'
    /\ length ps' = N.
Proof.
  intros Hlen. unfold fast_slam1.
  destruct (predict_particles_ok N cos sin randn v omega ps Hlen)
    as (ps1 & Hp & Hl1 & _).
  rewrite Hp. cbn [bind]. apply resampling_ok. exact Hl1.
Qed.

(** ** The particle count *)

Lemma new_particles_length (N N_LM n : nat) (h : heap) :
  length (fst (new_particles N N_LM n h)) = n.
Proof.
  revert h. induction n as [| n IH]; intros h; simpl; [reflexivity |].
  specialize (IH (h ++ [np_zeros N_LM LM_SIZE]
                    ++ [np_zeros (N_LM * LM_SIZE) LM_SIZE])).
  rewrite <- app_assoc.
  destruct (new_particles N N_LM n _) as [ps h2]. simpl in *.
  rewrite IH. reflexivity.
Qed.

Lemma main_loop_ok (N : nat) (cos sin : Q -> Q) (steps : list step_input)
    (ps : list Particle.t) :
  length ps = N ->
  exists ps', main_loop N cos sin steps ps = inr ps' /\ length ps' = N.
Proof.
  revert ps. induction steps as [| s steps IH]; intros ps Hlen; simpl.
  - exists ps. split; [reflexivity | exact Hlen].
  - destruct (fast_slam1_ok N cos sin (step_randn s) (step_rand s) ps
                (step_v s) (step_omega s) (step_z s) Hlen) as (ps1 & H1 & Hl1).
    rewrite H1. cbn [bind]. apply IH. exact Hl1.
Qed.

(** C8.  For every N >= 1 the constructed particle set has N particles, and
    from any set of N particles every sequence of predict/resample cycles
    returns a set of exactly N particles; so does a single resampling,
    whether or not it redraws the set. *)
Theorem particle_count_invariant (N : nat) (cos sin : Q -> Q)
    (steps : list step_input) (rand : nat -> Q) (ps : list Particle.t) :
  (1 <= N)%nat -> length ps = N ->
  length (fst (main_particles N)) = N
  /\ (exists ps', main_loop N cos sin steps ps = inr ps' /\ length ps' = N)
  /\ (exists ps', resampling N rand ps = inr ps' /\ length ps' = N).
Proof.
  intros _ Hlen. split; [| split].
  - apply new_particles_length.
  - apply main_loop_ok. exact Hlen.
  - apply resampling_ok. exact Hlen.
Qed.

Lemma particle_count_invariant_witness :
  length (fst (main_particles 100)) = 100%nat
  /\ (exists ps', main_loop 100 cos_at_0 sin_at_0 [step0; step0] dominant = inr ps'
                  /\ length ps' = 100%nat)
  /\ (exists ps', resampling 100 rand_half dominant = inr ps'
                  /\ length ps' = 100%nat).
Proof.
  apply (particle_count_invariant 100 cos_at_0 sin_at_0 [step0; step0]
           rand_half dominant).
  - lia.
  - vm_compute. reflexivity.
Defined.

(** ** The pipeline of one step *)

(** C1 fails on the code.  [fast_slam1] is prediction followed by
    resampling and nothing in between: no weight is multiplied by an
    observation likelihood, and the result is the same for every
    observation batch. *)
Theorem fast_slam1_ignores_observations (N : nat) (cos sin : Q -> Q)
    (randn : nat -> Q * Q) (rand : nat -> Q) (ps : list Particle.t)
    (u z z' : matrix) :
  fast_slam1 N cos sin randn rand ps u z
  = (let* ps1 := predict_particles N cos sin randn ps u in resampling N rand ps1)
  /\ fast_slam1 N cos sin randn rand ps u z
     = fast_slam1 N cos sin randn rand ps u z'.
Proof. split; reflexivity. Qed.

(** ** The motion model *)

(** C7.  For every pose and control the motion model returns, without
    raising, the pose (x + dt v cos yaw, y + dt v sin yaw,
    pi_2_pi (yaw + dt omega)); being a function of its two arguments it
    has no effect besides its result. *)
Theorem motion_model_correct (cos sin : Q -> Q) (vx vy vyaw v omega : Q) :
  exists vx' vy' vyaw',
    motion_model cos sin (pose_array vx vy vyaw) (control_array v omega)
    = inr (pose_array vx' vy' vyaw')
    /\ vx' == vx + DT * v * cos vyaw
    /\ vy' == vy + DT * v * sin vyaw
    /\ vyaw' == pi_2_pi (vyaw + DT * omega).
Proof. apply motion_model_pose. Qed.

(** ** Rounding to binary64 *)

Lemma pow2_pos (e : Z) : 0 < Qpower 2 e.
Proof. apply Qpower_0_lt. reflexivity. Qed.

Lemma pow2_plus (a b : Z) : Qpower 2 (a + b) == Qpower 2 a * Qpower 2 b.
Proof. apply Qpower_plus. discriminate. Qed.

Lemma pow2_mono (a b : Z) : (a <= b)%Z -> Qpower 2 a <= Qpower 2 b.
Proof. intros H. apply Qpower_le_compat_l; [exact H | discriminate]. Qed.

Lemma pow2_int (e : Z) : (0 <= e)%Z -> Qpower 2 e == inject_Z (2 ^ e).
Proof. intros H. rewrite (Zpower_Qpower 2 e H). reflexivity. Qed.

Lemma pow2_multiple (s t : Z) :
  (s <= t)%Z -> Qpower 2 t == inject_Z (2 ^ (t - s)) * Qpower 2 s.
Proof.
  intros H. rewrite <- pow2_int by lia. rewrite <- pow2_plus.
  replace (t - s + s)%Z with t by lia. reflexivity.
Qed.

Lemma rne_cases (x : Q) :
  (rne x = Qfloor x /\ x - inject_Z (Qfloor x) <= 1 # 2)
  \/ (rne x = (Qfloor x + 1)%Z /\ 1 # 2 <= x - inject_Z (Qfloor x)).
Proof.
  unfold rne.
  destruct (Qcompare_spec (x - inject_Z (Qfloor x)) (1 # 2)) as [H | H | H].
  - destruct (Z.even (Qfloor x)); [left | right]; split; try reflexivity; lra.
  - left. split; [reflexivity | lra].
  - right. split; [reflexivity | lra].
Qed.

Lemma rne_mono (x y : Q) : x <= y -> (rne x <= rne y)%Z.
Proof.
  intros Hxy. pose proof (Qfloor_resp_le x y Hxy) as Hf.
  destruct (Z.eq_dec (Qfloor x) (Qfloor y)) as [E | N].
  - unfold rne. rewrite <- E.
    destruct (Qcompare_spec (x - inject_Z (Qfloor x)) (1 # 2)) as [Hx | Hx | Hx];
      destruct (Qcompare_spec (y - inject_Z (Qfloor x)) (1 # 2)) as [Hy | Hy | Hy];
      try destruct (Z.even (Qfloor x)); try lia; exfalso; lra.
  - destruct (rne_cases x) as [[-> _] | [-> _]];
      destruct (rne_cases y) as [[-> _] | [-> _]]; lia.
Qed.

Lemma rne_comp (x y : Q) : x == y -> rne x = rne y.
Proof.
  intros H. apply Z.le_antisymm; apply rne_mono; rewrite H; apply Qle_refl.
Qed.

Lemma rne_Z (k : Z) : rne (inject_Z k) = k.
Proof.
  unfold rne. rewrite Qfloor_Z.
  destruct (Qcompare_spec (inject_Z k - inject_Z k) (1 # 2)) as [H | H | H].
  - exfalso. lra.
  - reflexivity.
  - exfalso. lra.
Qed.

(** Rounding to the multiples of [2^s]. *)
Lemma grid_mono (s : Z) (x y : Q) :
  x <= y ->
  inject_Z (rne (x / Qpower 2 s)) * Qpower 2 s
  <= inject_Z (rne (y / Qpower 2 s)) * Qpower 2 s.
Proof.
  intros H. pose proof (pow2_pos s) as Hp.
  apply Qmult_le_compat_r; [| lra].
  rewrite <- Zle_Qle. apply rne_mono.
  apply Qmult_le_compat_r; [exact H |].
  apply Qlt_le_weak, Qinv_lt_0_compat. exact Hp.
Qed.

Lemma grid_fix (s : Z) (k : Z) :
  inject_Z (rne (inject_Z k * Qpower 2 s / Qpower 2 s)) * Qpower 2 s
  == inject_Z k * Qpower 2 s.
Proof.
  pose proof (pow2_pos s) as Hp.
  rewrite (rne_comp _ (inject_Z k)); [| field; lra].
  rewrite rne_Z. reflexivity.
Qed.

Lemma grid_pow2 (s t : Z) :
  (s <= t)%Z ->
  inject_Z (rne (Qpower 2 t / Qpower 2 s)) * Qpower 2 s == Qpower 2 t.
Proof.
  intros H. pose proof (pow2_pos s) as Hp.
  rewrite (rne_comp _ (inject_Z (2 ^ (t - s)))).
  - rewrite rne_Z. symmetry. apply pow2_multiple. exact H.
  - rewrite (pow2_multiple s t H). field. lra.
Qed.

Lemma ilog2_spec (q : Q) :
  0 < q -> Qpower 2 (ilog2 q) <= q /\ q < Qpower 2 (ilog2 q + 1).
Proof.
  intros Hq. destruct q as [n d].
  assert (Hn : (0 < n)%Z).
  { unfold Qlt in Hq. simpl in Hq. lia. }
  unfold ilog2. cbn [Qnum Qden].
  set (a := Z.log2 n). set (b := Z.log2 (Zpos d)).
  pose proof (Z.log2_nonneg n) as Ha0. pose proof (Z.log2_nonneg (Zpos d)) as Hb0.
  destruct (Z.log2_spec n Hn) as [HnL HnU].
  destruct (Z.log2_spec (Zpos d) ltac:(lia)) as [HdL HdU].
  fold a in HnL, HnU, Ha0. fold b in HdL, HdU, Hb0.
  rewrite Zle_Qle in HnL, HdL. rewrite Zlt_Qlt in HnU, HdU.
  rewrite <- pow2_int in HnL, HdL by lia.
  rewrite <- pow2_int in HnU, HdU by lia.
  replace (Z.succ a) with (a + 1)%Z in HnU by lia.
  replace (Z.succ b) with (b + 1)%Z in HdU by lia.
  rewrite pow2_plus in HnU, HdU. change (Qpower 2 1) with 2 in HnU, HdU.
  assert (HAB : Qpower 2 (a - b) * Qpower 2 b == Qpower 2 a).
  { rewrite <- pow2_plus. replace (a - b + b)%Z with a by lia. reflexivity. }
  assert (Hqd : (n # d) * inject_Z (Zpos d) == inject_Z n).
  { rewrite (Qmake_Qdiv n d). field. discriminate. }
  pose proof (pow2_pos (a - b)) as HP. pose proof (pow2_pos b) as HB.
  pose proof (pow2_pos a) as HA.
  set (P := Qpower 2 (a - b)) in *. set (B := Qpower 2 b) in *.
  set (A := Qpower 2 a) in *. set (N := inject_Z n) in *.
  set (D := inject_Z (Zpos d)) in *. set (q := n # d) in *.
  assert (HU : q < P * 2).
  { destruct (Qlt_le_dec q (P * 2)) as [H | H]; [exact H | exfalso].
    assert (P * 2 * D <= q * D) by (apply Qmult_le_compat_r; lra).
    assert (P * 2 * B <= P * 2 * D) by (apply Qmult_le_l; lra).
    lra. }
  assert (HL : P * (1 # 2) <= q).
  { destruct (Qlt_le_dec q (P * (1 # 2))) as [H | H]; [exfalso | exact H].
    assert (q * D <= P * (1 # 2) * D) by (apply Qmult_le_compat_r; lra).
    assert (P * (1 # 2) * D <= P * (1 # 2) * (B * 2)) by (apply Qmult_le_l; lra).
    assert (P * (1 # 2) * (B * 2) == A) by (rewrite <- HAB; ring).
    assert (q * D < P * (1 # 2) * D) by (apply Qmult_lt_compat_r; lra).
    lra. }
  destruct (Qle_bool P q) eqn:Ht.
  - apply Qle_bool_iff in Ht. split; [exact Ht |].
    pose proof (pow2_plus (a - b) 1) as E. change (Qpower 2 1) with 2 in E.
    fold P in E. lra.
  - assert (Hlt : q < P).
    { apply Qnot_le_lt. intros H. apply Qle_bool_iff in H. congruence. }
    replace (a - b - 1 + 1)%Z with (a - b)%Z by lia. split; [| exact Hlt].
    pose proof (pow2_plus (a - b) (-1)) as E.
    change (Qpower 2 (-1)) with (1 # 2) in E. fold P in E.
    replace (a - b + -1)%Z with (a - b - 1)%Z in E by lia. lra.
Qed.

Lemma ilog2_mono (x y : Q) : 0 < x -> x <= y -> (ilog2 x <= ilog2 y)%Z.
Proof.
  intros Hx Hxy.
  destruct (ilog2_spec x Hx) as [HxL _].
  destruct (ilog2_spec y ltac:(lra)) as [_ HyU].
  destruct (Z_le_gt_dec (ilog2 x) (ilog2 y)) as [H | H]; [exact H | exfalso].
  pose proof (pow2_mono (ilog2 y + 1) (ilog2 x) ltac:(lia)). lra.
Qed.

Lemma round_pos_mono (x y : Q) : 0 < x -> x <= y -> round_pos x <= round_pos y.
Proof.
  intros Hx Hxy. unfold round_pos.
  pose proof (ilog2_mono x y Hx Hxy) as Hl.
  destruct (ilog2_spec x Hx) as [_ HxU].
  destruct (ilog2_spec y ltac:(lra)) as [HyL _].
  destruct (Z.eq_dec (ilog2 x) (ilog2 y)) as [E | N].
  - rewrite E. apply grid_mono. exact Hxy.
  - set (B := Qpower 2 (ilog2 y)).
    assert (HxB : x <= B).
    { pose proof (pow2_mono (ilog2 x + 1) (ilog2 y) ltac:(lia)). unfold B. lra. }
    pose proof (grid_pow2 (ilog2 x - 52) (ilog2 y) ltac:(lia)) as E1.
    pose proof (grid_pow2 (ilog2 y - 52) (ilog2 y) ltac:(lia)) as E2.
    pose proof (grid_mono (ilog2 x - 52) x B HxB) as M1.
    pose proof (grid_mono (ilog2 y - 52) B y HyL) as M2.
    fold B in E1, E2. lra.
Qed.

Lemma round_pos_pos (x : Q) : 0 < x -> 0 < round_pos x.
Proof.
  intros Hx. destruct (ilog2_spec x Hx) as [HL _].
  apply (Qlt_le_trans _ (Qpower 2 (ilog2 x))); [apply pow2_pos |].
  unfold round_pos.
  pose proof (grid_pow2 (ilog2 x - 52) (ilog2 x) ltac:(lia)) as E.
  pose proof (grid_mono (ilog2 x - 52) _ x HL) as M. lra.
Qed.

Lemma round64_mono (x y : Q) : x <= y -> round64 x <= round64 y.
Proof.
  intros Hxy. unfold round64. rewrite !Qred_correct.
  destruct (Qcompare_spec x 0) as [Hx | Hx | Hx];
    destruct (Qcompare_spec y 0) as [Hy | Hy | Hy]; try (exfalso; lra).
  - apply Qle_refl.
  - apply Qlt_le_weak, round_pos_pos. exact Hy.
  - pose proof (round_pos_pos (- x) ltac:(lra)). lra.
  - pose proof (round_pos_mono (- y) (- x) ltac:(lra) ltac:(lra)). lra.
  - pose proof (round_pos_pos (- x) ltac:(lra)).
    pose proof (round_pos_pos y Hy). lra.
  - apply round_pos_mono; assumption.
Qed.

Lemma round64_rounding : rounding round64.
Proof.
  split.
  - apply round64_mono.
  - vm_compute. reflexivity.
  - vm_compute. reflexivity.
  - vm_compute. reflexivity.
  - vm_compute. reflexivity.
Qed.

Lemma math_pi_pos : 0 < math_pi.
Proof. reflexivity. Qed.

(** ** The angle normalisation under rounding *)

Lemma fmod_range (x y : Q) :
  0 < y -> - y < Rounded.fmod x y /\ Rounded.fmod x y < y
           /\ (0 <= x -> 0 <= Rounded.fmod x y).
Proof.
  intros Hy. unfold Rounded.fmod, Rounded.Qtrunc.
  assert (Hx : x == (x / y) * y) by (field; lra).
  destruct (Qle_bool 0 (x / y)) eqn:Hz.
  - apply Qle_bool_iff in Hz.
    pose proof (Qfloor_le (x / y)) as Hlo.
    pose proof (Qlt_floor (x / y)) as Hhi.
    rewrite inject_Z_plus in Hhi. change (inject_Z 1) with 1 in Hhi.
    set (f := inject_Z (Qfloor (x / y))) in *. set (d := x / y) in *.
    assert (f * y <= d * y) by (apply Qmult_le_compat_r; lra).
    assert (d * y < (f + 1) * y) by (apply Qmult_lt_compat_r; lra).
    split; [lra |]. split; [lra |]. intros _. lra.
  - assert (Hneg : x / y < 0).
    { apply Qnot_le_lt. intros H. apply Qle_bool_iff in H. congruence. }
    pose proof (Qle_ceiling (x / y)) as Hhi.
    pose proof (Qceiling_lt (x / y)) as Hlo.
    unfold Z.sub in Hlo. rewrite inject_Z_plus, inject_Z_opp in Hlo.
    change (inject_Z 1) with 1 in Hlo.
    set (c := inject_Z (Qceiling (x / y))) in *. set (d := x / y) in *.
    assert (d * y <= c * y) by (apply Qmult_le_compat_r; lra).
    assert ((c + - (1)) * y < d * y) by (apply Qmult_lt_compat_r; lra).
    split; [lra |]. split; [lra |]. intros Hx0.
    exfalso. assert (0 <= d * y) by lra.
    assert (d * y < 0 * y) by (apply Qmult_lt_compat_r; lra). lra.
Qed.

Lemma py_mod_range (rnd : Q -> Q) (x y : Q) :
  rounding rnd -> 0 < y -> rnd y == y ->
  0 <= Rounded.py_mod rnd x y /\ Rounded.py_mod rnd x y <= y.
Proof.
  intros Hr Hy Hfix. unfold Rounded.py_mod.
  destruct (fmod_range x y Hy) as (Hlo & Hhi & _).
  destruct (Qle_bool 0 (Rounded.fmod x y)) eqn:Hm.
  - apply Qle_bool_iff in Hm. split; lra.
  - assert (Hneg : Rounded.fmod x y < 0).
    { apply Qnot_le_lt. intros H. apply Qle_bool_iff in H. congruence. }
    pose proof (rnd_mono rnd Hr 0 (Rounded.fmod x y + y) ltac:(lra)) as H1.
    pose proof (rnd_mono rnd Hr (Rounded.fmod x y + y) y ltac:(lra)) as H2.
    pose proof (rnd_0 rnd Hr) as H0. split; lra.
Qed.

Lemma pi_2_pi_rounded_range (rnd : Q -> Q) (angle : Q) :
  rounding rnd ->
  - math_pi <= Rounded.pi_2_pi rnd angle /\ Rounded.pi_2_pi rnd angle <= math_pi.
Proof.
  intros Hr. unfold Rounded.pi_2_pi.
  pose proof math_pi_pos as Hpi.
  destruct (py_mod_range rnd (rnd (angle + math_pi)) (2 * math_pi) Hr
              ltac:(lra) (rnd_2pi rnd Hr)) as [Hlo Hhi].
  set (m := Rounded.py_mod rnd (rnd (angle + math_pi)) (2 * math_pi)) in *.
  pose proof (rnd_mono rnd Hr (- math_pi) (m - math_pi) ltac:(lra)) as H1.
  pose proof (rnd_mono rnd Hr (m - math_pi) math_pi ltac:(lra)) as H2.
  pose proof (rnd_pi rnd Hr). pose proof (rnd_opp_pi rnd Hr). split; lra.
Qed.

(** ** Angle normalisation *)

(** C4, as the code has it.  For every angle [pi_2_pi] computes
    ((angle + pi) mod 2 pi) - pi, the mod being non-negative, and the
    value lies in the closed interval [-pi, pi]: in exact arithmetic, and
    with every operation rounded to binary64.  In binary64 both ends are
    returned: -pi at the angle pi, and pi at the number just below -pi,
    where the mod, 2 pi - 2^-51, rounds to 2 pi. *)
Theorem pi_2_pi_range (angle : Q) :
  pi_2_pi angle = Qmod (angle + math_pi) (2 * math_pi) - math_pi
  /\ 0 <= Qmod (angle + math_pi) (2 * math_pi)
  /\ (- math_pi <= pi_2_pi angle /\ pi_2_pi angle <= math_pi)
  /\ Rounded.pi_2_pi round64 angle
     = round64 (Rounded.py_mod round64 (round64 (angle + math_pi)) (2 * math_pi)
                - math_pi)
  /\ 0 <= Rounded.py_mod round64 (round64 (angle + math_pi)) (2 * math_pi)
  /\ (- math_pi <= Rounded.pi_2_pi round64 angle
      /\ Rounded.pi_2_pi round64 angle <= math_pi)
  /\ Rounded.pi_2_pi round64 math_pi == - math_pi
  /\ Rounded.pi_2_pi round64 below_neg_pi == math_pi.
Proof.
  assert (Hpi : 0 < 2 * math_pi) by (unfold math_pi; reflexivity).
  destruct (Qmod_range (angle + math_pi) (2 * math_pi) Hpi) as [Hlo Hhi].
  split; [reflexivity |]. split; [exact Hlo |].
  split; [unfold pi_2_pi; split; lra |].
  split; [reflexivity |].
  split.
  { apply (py_mod_range round64 _ _ round64_rounding Hpi).
    apply (rnd_2pi round64 round64_rounding). }
  split; [apply (pi_2_pi_rounded_range round64 angle round64_rounding) |].
  split; vm_compute; reflexivity.
Qed.

(** C4, as the claim has it, fails at the angle pi: the result is -pi,
    which the interval (-pi, pi] excludes. *)
Lemma pi_2_pi_not_in_left_open_interval :
  ~ (- math_pi < pi_2_pi math_pi /\ pi_2_pi math_pi <= math_pi).
Proof.
  intros [Hlt _].
  assert (E : pi_2_pi math_pi == - math_pi) by (vm_compute; reflexivity).
  rewrite E in Hlt. apply (Qlt_irrefl _ Hlt).
Qed.

(** ** Uniform weights *)

Lemma uniform_weights (N : nat) (ps : list Particle.t) :
  uniform N ps ->
  exists qs, map Particle.w ps = map Fin qs
             /\ Forall (fun q => q == inv_N N) qs.
Proof.
  induction 1 as [| p ps Hp _ (qs & Hqs & Hall)].
  - exists []. split; [reflexivity | constructor].
  - destruct (Particle.w p) as [q | | |] eqn:Hw; simpl in Hp; try contradiction.
    exists (q :: qs). split.
    + simpl. rewrite Hw, Hqs. reflexivity.
    + constructor; assumption.
Qed.

Lemma weights_uniform (N : nat) (ps : list Particle.t) (qs : list Q) :
  map Particle.w ps = map Fin qs ->
  Forall (fun q => q == inv_N N) qs ->
  uniform N ps.
Proof.
  revert qs. induction ps as [| p ps IH]; intros [| q qs] Hw Hall;
    try discriminate; [constructor |].
  simpl in Hw. injection Hw as Hp Hps. inversion Hall; subst.
  constructor.
  - rewrite Hp. simpl. assumption.
  - apply (IH qs); assumption.
Qed.

(** One normalisation of uniform weights: the sum is 1, the division
    happens, the weights are uniform again and the resampling branch is
    not taken. *)
Lemma resampling_uniform (N : nat) (rand : nat -> Q) (ps : list Particle.t) :
  (1 <= N)%nat -> length ps = N -> uniform N ps ->
  exists ps',
    normalize_weight N ps = inr ps'
    /\ flt (Neff (map Particle.w ps')) (Fin (NTH N)) = false
    /\ feq (Neff (map Particle.w ps')) (Fin (Qnat N))
    /\ resampling N rand ps = inr ps'
    /\ uniform N ps' /\ length ps' = N.
Proof.
  intros HN Hlen Hu.
  destruct (uniform_weights N ps Hu) as (qs & Hw & Hall).
  assert (Hqlen : length qs = N).
  { rewrite <- Hlen, <- (length_map Particle.w ps), Hw, length_map. reflexivity. }
  assert (Hsum : fsum (map Particle.w ps) = Fin (fold_left Qplus qs 0)).
  { rewrite Hw. apply fsum_Fin. }
  assert (Hone : fold_left Qplus qs 0 == 1).
  { rewrite fold_left_Qplus, (Qsum_const qs _ Hall), Hqlen.
    rewrite (inv_N_mult N HN). lra. }
  assert (Hnz : ~ fold_left Qplus qs 0 == 0) by lra.
  set (s := fold_left Qplus qs 0) in *.
  set (ps' := map (fun p => Particle.set_w p
                     (np_div (Particle.w p) (fsum (map Particle.w ps)))) ps).
  assert (Hn : normalize_weight N ps = inr ps').
  { apply normalize_weight_divide; [exact Hlen |].
    rewrite Hsum. simpl. apply Qeq_bool_false. exact Hnz. }
  assert (Hw' : map Particle.w ps' = map Fin (map (fun q => q / s) qs)).
  { unfold ps'. rewrite map_w_set_w, Hsum.
    transitivity (map (fun v => np_div v (Fin s)) (map Particle.w ps)).
    - rewrite map_map. reflexivity.
    - rewrite Hw, !map_map. apply map_ext. intros q.
      apply np_div_Fin. exact Hnz. }
  assert (Hall' : Forall (fun q => q == inv_N N) (map (fun q => q / s) qs)).
  { apply Forall_forall. intros q Hq.
    apply list_elem_of_In, in_map_iff in Hq. destruct Hq as (q0 & <- & Hin).
    rewrite Forall_forall in Hall.
    rewrite (Hall q0 (proj2 (list_elem_of_In _ _) Hin)), Hone.
    unfold Qdiv. change (/ 1) with 1. ring. }
  assert (Hl' : length ps' = N).
  { unfold ps'. rewrite length_map. exact Hlen. }
  destruct (Neff_uniform N (map (fun q => q / s) qs) HN) as [Hval Hflt].
  { rewrite length_map. exact Hqlen. }
  { exact Hall'. }
  rewrite <- Hw' in Hval, Hflt.
  exists ps'. split; [exact Hn |]. split; [exact Hflt |].
  split; [exact Hval |]. split.
  - apply (resampling_skip N rand ps ps' Hlen Hn Hflt).
  - split; [| exact Hl']. apply (weights_uniform N ps' _ Hw' Hall').
Qed.

Lemma fast_slam1_uniform (N : nat) (cos sin : Q -> Q) (randn : nat -> Q * Q)
    (rand : nat -> Q) (ps : list Particle.t) (v omega : Q) (z : matrix) :
  (1 <= N)%nat -> length ps = N -> uniform N ps ->
  exists ps1 ps',
    predict_particles N cos sin randn ps (control_array v omega) = inr ps1
    /\ normalize_weight N ps1 = inr ps'
    /\ flt (Neff (map Particle.w ps')) (Fin (NTH N)) = false
    /\ feq (Neff (map Particle.w ps')) (Fin (Qnat N))
    /\ fast_slam1 N cos sin randn rand ps (control_array v omega) z = inr ps'
    /\ uniform N ps' /\ length ps' = N.
Proof.
  intros HN Hlen Hu.
  destruct (predict_particles_ok N cos sin randn v omega ps Hlen)
    as (ps1 & Hp & Hl1 & Hw1).
  assert (Hu1 : uniform N ps1).
  { destruct (uniform_weights N ps Hu) as (qs & Hw & Hall).
    apply (weights_uniform N ps1 qs); [congruence | exact Hall]. }
  destruct (resampling_uniform N rand ps1 HN Hl1 Hu1)
    as (ps' & Hn & Hflt & Hval & Hr & Hu' & Hl').
  exists ps1, ps'. unfold fast_slam1. rewrite Hp. cbn [bind].
  auto 10.
Qed.

Lemma new_particles_uniform (N N_LM n : nat) (h : heap) :
  uniform N (fst (new_particles N N_LM n h)).
Proof.
  revert h. induction n as [| n IH]; intros h; simpl; [constructor |].
  specialize (IH (h ++ [np_zeros N_LM LM_SIZE]
                    ++ [np_zeros (N_LM * LM_SIZE) LM_SIZE])).
  rewrite <- app_assoc.
  destruct (new_particles N N_LM n _) as [ps h2]. simpl in *.
  constructor; [simpl; reflexivity | exact IH].
Qed.


(** ** Weight normalisation with rounding *)

Lemma rounded_py_div_nonzero (rnd : Q -> Q) (a b : float) :
  is_zero b = false -> Rounded.py_div rnd a b = inr (Rounded.np_div rnd a b).
Proof.
  intros H. unfold Rounded.py_div. rewrite (py_div_nonzero a b H). reflexivity.
Qed.

Lemma rounded_py_div_zero (rnd : Q -> Q) (a b : float) :
  is_zero b = true -> Rounded.py_div rnd a b = inl ZeroDivisionError.
Proof.
  intros H. unfold Rounded.py_div. rewrite (py_div_zero a b H). reflexivity.
Qed.

Lemma rounded_normalize_weight_divide (rnd : Q -> Q) (N : nat)
    (ps : list Particle.t) :
  length ps = N ->
  is_zero (Rounded.fsum rnd (map Particle.w ps)) = false ->
  Rounded.normalize_weight rnd N ps
  = inr (map (fun p => Particle.set_w p
                (Rounded.np_div rnd (Particle.w p)
                   (Rounded.fsum rnd (map Particle.w ps)))) ps).
Proof.
  intros Hlen Hnz. unfold Rounded.normalize_weight.
  rewrite (for_range_slots
             (fun p => Particle.set_w p
                (Rounded.np_div rnd (Particle.w p)
                   (Rounded.fsum rnd (map Particle.w ps))))).
  - reflexivity.
  - exact Hlen.
  - intros i t a Ha. rewrite (index_lookup _ _ _ Ha). simpl.
    rewrite (rounded_py_div_nonzero rnd _ _ Hnz). reflexivity.
Qed.

Lemma rounded_normalize_weight_zero (rnd : Q -> Q) (N : nat)
    (ps : list Particle.t) :
  length ps = N ->
  is_zero (Rounded.fsum rnd (map Particle.w ps)) = true ->
  Rounded.normalize_weight rnd N ps
  = inr (map (fun p => Particle.set_w p (Rounded.inv_N rnd N)) ps).
Proof.
  intros Hlen Hz. unfold Rounded.normalize_weight.
  assert (Hreset :
    for_range N (fun i ps0 =>
        let* p := index ps0 i in
        ret (<[i := Particle.set_w p (Rounded.inv_N rnd N)]> ps0)) ps
    = inr (map (fun p => Particle.set_w p (Rounded.inv_N rnd N)) ps)).
  { apply for_range_slots; [exact Hlen |].
    intros i t a Ha. rewrite (index_lookup _ _ _ Ha). reflexivity. }
  destruct N as [| n].
  - destruct ps; [reflexivity | discriminate].
  - destruct ps as [| p ps']; [discriminate |].
    unfold for_range at 1. simpl for_range_from.
    unfold index at 1. simpl lookup. simpl bind.
    rewrite (rounded_py_div_zero rnd _ _ Hz). simpl bind.
    exact Hreset.
Qed.

(** With rounding too [normalize_weight] returns, and keeps every field
    but [w]. *)
Lemma rounded_normalize_weight_total (rnd : Q -> Q) (N : nat)
    (ps : list Particle.t) :
  length ps = N ->
  exists f,
    Rounded.normalize_weight rnd N ps
    = inr (map (fun p => Particle.set_w p (f p)) ps).
Proof.
  intros Hlen. destruct (is_zero (Rounded.fsum rnd (map Particle.w ps))) eqn:Hz.
  - eexists (fun _ => _). apply (rounded_normalize_weight_zero rnd N ps Hlen Hz).
  - eexists (fun p => _). apply (rounded_normalize_weight_divide rnd N ps Hlen Hz).
Qed.

Lemma rounded_normalize_weight_length (rnd : Q -> Q) (N : nat)
    (ps ps1 : list Particle.t) :
  length ps = N -> Rounded.normalize_weight rnd N ps = inr ps1 -> length ps1 = N.
Proof.
  intros Hlen H. destruct (rounded_normalize_weight_total rnd N ps Hlen) as (f & Hf).
  rewrite Hf in H. injection H as <-. rewrite length_map. exact Hlen.
Qed.


(** ** Equal weights *)

Lemma all_weights_map (w : float) (ps : list Particle.t) :
  all_weights w ps -> map Particle.w ps = replicate (length ps) w.
Proof.
  induction 1 as [| p ps Hp _ IH]; simpl; [reflexivity |].
  rewrite Hp, IH. reflexivity.
Qed.

Lemma all_weights_set_w (w : float) (ps : list Particle.t) :
  all_weights w (map (fun p => Particle.set_w p w) ps).
Proof.
  apply Forall_forall. intros p Hp.
  apply list_elem_of_In, in_map_iff in Hp. destruct Hp as (q & <- & _).
  reflexivity.
Qed.


(** One normalisation of N equal weights [w] leaves N equal weights,
    whatever the rounding. *)
Lemma rounded_normalize_equal (rnd : Q -> Q) (N : nat) (w : float)
    (ps : list Particle.t) :
  length ps = N -> all_weights w ps ->
  Rounded.normalize_weight rnd N ps
  = inr (map (fun p => Particle.set_w p (Rounded.renormalised rnd N w)) ps).
Proof.
  intros Hlen Hall.
  pose proof (all_weights_map w ps Hall) as Hw. rewrite Hlen in Hw.
  unfold Rounded.renormalised.
  destruct (is_zero (Rounded.fsum rnd (replicate N w))) eqn:Hz.
  - rewrite (rounded_py_div_zero rnd _ _ Hz).
    apply rounded_normalize_weight_zero; [exact Hlen |]. rewrite Hw. exact Hz.
  - rewrite (rounded_py_div_nonzero rnd _ _ Hz).
    rewrite (rounded_normalize_weight_divide rnd N ps Hlen) by (rewrite Hw; exact Hz).
    rewrite Hw. f_equal. apply map_ext_in. intros p Hp.
    unfold all_weights in Hall. rewrite Forall_forall in Hall.
    rewrite (Hall p (proj2 (list_elem_of_In _ _) Hp)). reflexivity.
Qed.









(** ** Degenerate weight sums *)

Lemma np_div_non_finite (a b : float) :
  ~ finite b -> np_div a b = Fin 0 \/ np_div a b = NaN.
Proof.
  destruct a, b; simpl; intros H; try tauto; exfalso; apply H; exact I.
Qed.

(** C6, as the code has it.  A zero weight sum makes the division raise:
    every weight is reset to 1/N and the resampling branch is not taken.
    A positive finite sum is divided out and the weights then sum to 1.
    A non-finite sum raises nothing: every weight is divided by it, which
    leaves 0 or NaN. *)
Theorem normalize_weight_fallback (N : nat) (rand : nat -> Q)
    (ps : list Particle.t) :
  (1 <= N)%nat -> length ps = N ->
  (forall s, fsum (map Particle.w ps) = Fin s -> s == 0 ->
     exists ps',
       normalize_weight N ps = inr ps'
       /\ Forall (fun p => Particle.w p = Fin (inv_N N)) ps'
       /\ flt (Neff (map Particle.w ps')) (Fin (NTH N)) = false
       /\ resampling N rand ps = inr ps')
  /\ (forall s, fsum (map Particle.w ps) = Fin s -> 0 < s ->
        exists ps',
          normalize_weight N ps = inr ps'
          /\ feq (fsum (map Particle.w ps')) (Fin 1))
  /\ (~ finite (fsum (map Particle.w ps)) ->
        exists ps',
          normalize_weight N ps = inr ps'
          /\ Forall (fun p => Particle.w p = Fin 0 \/ Particle.w p = NaN) ps').
Proof.
  intros HN Hlen. split; [| split].
  - intros s Hs Hz.
    set (ps' := map (fun p => Particle.set_w p (Fin (inv_N N))) ps).
    assert (Hn : normalize_weight N ps = inr ps').
    { apply normalize_weight_zero; [exact Hlen |].
      rewrite Hs. simpl. apply Qeq_bool_iff. exact Hz. }
    assert (Hw : map Particle.w ps' = map Fin (map (fun _ => inv_N N) ps)).
    { unfold ps'. rewrite !map_map. reflexivity. }
    assert (Hflt : flt (Neff (map Particle.w ps')) (Fin (NTH N)) = false).
    { rewrite Hw. apply Neff_uniform; [exact HN | |].
      - rewrite length_map. exact Hlen.
      - apply Forall_forall. intros q Hq.
        apply list_elem_of_In, in_map_iff in Hq. destruct Hq as (_ & <- & _).
        reflexivity. }
    exists ps'. split; [exact Hn |]. split; [| split; [exact Hflt |]].
    + apply Forall_forall. intros p Hp.
      apply list_elem_of_In, in_map_iff in Hp. destruct Hp as (p0 & <- & _).
      reflexivity.
    + apply (resampling_skip N rand ps ps' Hlen Hn Hflt).
  - intros s Hs Hpos.
    destruct (fsum_finite _ _ Hs) as (qs & Hw).
    destruct (normalize_weight_finite N ps qs HN Hlen Hw)
      as (ps1 & qs1 & Hn & Hw1 & _ & Hone).
    exists ps1. split; [exact Hn |].
    rewrite Hw1, fsum_Fin. simpl. rewrite fold_left_Qplus, Hone. lra.
  - intros Hinf. eexists. split.
    + apply normalize_weight_divide; [exact Hlen |].
      destruct (fsum (map Particle.w ps)); try reflexivity.
      exfalso. apply Hinf. exact I.
    + apply Forall_forall. intros p Hp.
      apply list_elem_of_In, in_map_iff in Hp. destruct Hp as (p0 & <- & _).
      simpl. apply np_div_non_finite. exact Hinf.
Qed.

Lemma normalize_weight_fallback_witness :
  exists ps',
    normalize_weight 100 dominant = inr ps'
    /\ feq (fsum (map Particle.w ps')) (Fin 1).
Proof.
  destruct (normalize_weight_fallback 100 rand_half dominant) as (_ & Hpos & _).
  - lia.
  - vm_compute. reflexivity.
  - apply (Hpos 1); [vm_compute; reflexivity | reflexivity].
Defined.

(** C6, as the claim has it, fails for a non-finite sum: with one infinite
    weight the sum is infinite, nothing raises, and the division leaves NaN
    in place of the infinite weight instead of 1/N. *)
Lemma normalize_weight_infinite_sum_not_reset :
  fsum (map Particle.w inf_weight) = PInf
  /\ exists ps' p,
       normalize_weight N_PARTICLE inf_weight = inr ps'
       /\ ps' !! 0%nat = Some p
       /\ Particle.w p = NaN
       /\ ~ uniform N_PARTICLE ps'.
Proof.
  split; [vm_compute; reflexivity |].
  eexists. eexists. split; [vm_compute; reflexivity |].
  split; [reflexivity |]. split; [reflexivity |].
  intros Hu. inversion Hu as [| p ps Hp _]; subst. exact Hp.
Qed.

(** ** Construction of the particle set *)

Lemma new_particles_spec (N N_LM n : nat) (h : heap) :
  (exists t, snd (new_particles N N_LM n h) = h ++ t)
  /\ forall i p,
       fst (new_particles N N_LM n h) !! i = Some p ->
       Particle.w p = Fin (inv_N N)
       /\ Particle.x p = 0 /\ Particle.y p = 0 /\ Particle.yaw p = 0
       /\ snd (new_particles N N_LM n h) !! Particle.lm p
          = Some (np_zeros N_LM LM_SIZE)
       /\ snd (new_particles N N_LM n h) !! Particle.lmP p
          = Some (np_zeros (N_LM * LM_SIZE) LM_SIZE).
Proof.
  revert h. induction n as [| n IH]; intros h.
  - simpl. split; [exists []; rewrite app_nil_r; reflexivity |].
    intros i p Hp. rewrite lookup_nil in Hp. discriminate.
  - simpl.
    specialize (IH ((h ++ [np_zeros N_LM LM_SIZE])
                      ++ [np_zeros (N_LM * LM_SIZE) LM_SIZE])).
    destruct (new_particles N N_LM n _) as [ps h2]. simpl in *.
    destruct IH as [[t Ht] IH]. subst h2. split.
    + eexists. rewrite <- !app_assoc. reflexivity.
    + intros [| i] p Hp.
      * simpl in Hp. injection Hp as <-. simpl.
        repeat (split; [reflexivity |]). split.
        -- rewrite <- !app_assoc. simpl.
           apply list_lookup_middle. reflexivity.
        -- rewrite <- (app_assoc _ [_] t). simpl.
           apply list_lookup_middle. reflexivity.
      * simpl in Hp. apply (IH i p Hp).
Qed.

(** C9, as the code has it.  Every constructed particle has weight 1/N
    and the pose (0, 0, 0); its landmark means are an all-zero array of
    [N_LM] rows and its landmark covariances an all-zero array of
    [2 N_LM] rows, where [main] passes the number of rows of its landmark
    table for [N_LM]. *)
Theorem constructed_particles (N : nat) (i : nat) (p : Particle.t) :
  fst (main_particles N) !! i = Some p ->
  length (fst (main_particles N)) = N
  /\ Particle.w p = Fin (inv_N N)
  /\ Particle.x p = 0 /\ Particle.y p = 0 /\ Particle.yaw p = 0
  /\ snd (main_particles N) !! Particle.lm p
     = Some (np_zeros (length RFID) LM_SIZE)
  /\ snd (main_particles N) !! Particle.lmP p
     = Some (np_zeros (length RFID * LM_SIZE) LM_SIZE).
Proof.
  intros Hp. split; [apply new_particles_length |].
  apply (proj2 (new_particles_spec N (length RFID) N []) i p Hp).
Qed.

Lemma constructed_particles_witness :
  exists p,
    initial !! 5%nat = Some p
    /\ Particle.w p = Fin (inv_N 100)
    /\ initial_heap !! Particle.lm p = Some (np_zeros 8 2).
Proof.
  eexists. split; [reflexivity |].
  destruct (constructed_particles 100 5 _ eq_refl)
    as (_ & Hw & _ & _ & _ & Hlm & _).
  split; [exact Hw | exact Hlm].
Defined.

(** C9, as the claim has it, fails: the landmark arrays of a constructed
    particle are not empty, they hold one all-zero row per landmark of the
    table. *)
Lemma constructed_landmarks_not_empty :
  exists p a,
    initial !! 0%nat = Some p
    /\ initial_heap !! Particle.lm p = Some a
    /\ length a = length RFID
    /\ a <> [].
Proof.
  eexists. eexists. split; [reflexivity |]. split; [reflexivity |].
  split; [reflexivity | discriminate].
Qed.

(** ** The state estimator *)





(** ** Cumulative sums and resampling targets *)

Lemma cumsum_from_Fin (a : Q) (qs : list Q) :
  cumsum_from (Fin a) (map Fin qs) = map Fin (Qcumsum_from a qs).
Proof.
  revert a. induction qs as [| q qs IH]; intros a; simpl;
    [reflexivity | rewrite IH; reflexivity].
Qed.

Lemma np_cumsum_Fin (qs : list Q) :
  np_cumsum (map Fin qs) = map Fin (Qcumsum qs).
Proof.
  destruct qs as [| q qs]; simpl; [reflexivity |].
  rewrite cumsum_from_Fin. reflexivity.
Qed.

Lemma Qcumsum_from_length (a : Q) (qs : list Q) :
  length (Qcumsum_from a qs) = length qs.
Proof.
  revert a. induction qs as [| q qs IH]; intros a; simpl;
    [reflexivity | rewrite IH; reflexivity].
Qed.

Lemma Qcumsum_length (qs : list Q) : length (Qcumsum qs) = length qs.
Proof.
  destruct qs as [| q qs]; simpl; [reflexivity |].
  rewrite Qcumsum_from_length. reflexivity.
Qed.

Lemma Qcumsum_from_lookup (a : Q) (qs : list Q) (k : nat) (c : Q) :
  Qcumsum_from a qs !! k = Some c -> c == a + Qsum (take (S k) qs).
Proof.
  revert a k. induction qs as [| q qs IH]; intros a k H; [discriminate |].
  destruct k as [| k]; simpl in H.
  - injection H as <-. destruct qs; simpl; lra.
  - rewrite (IH _ _ H). simpl. lra.
Qed.

(** Entry [k] of the cumulative sums is the sum of the first [k + 1]
    terms. *)
Lemma Qcumsum_lookup (qs : list Q) (k : nat) (c : Q) :
  Qcumsum qs !! k = Some c -> c == Qsum (take (S k) qs).
Proof.
  destruct qs as [| q qs]; intros H; [discriminate |].
  destruct k as [| k]; simpl in H.
  - injection H as <-. destruct qs; simpl; lra.
  - rewrite (Qcumsum_from_lookup _ _ _ _ H). simpl. lra.
Qed.

Lemma resample_base_Fin (N : nat) (qs : list Q) :
  resample_base N (map Fin qs) = map Fin (Qbase N qs).
Proof.
  unfold resample_base, Qbase.
  replace (map (fun v => fadd (fmul v (Fin 0)) (Fin (inv_N N))) (map Fin qs))
    with (map Fin (map (fun q => q * 0 + inv_N N) qs))
    by (rewrite !map_map; reflexivity).
  rewrite np_cumsum_Fin, !map_map. reflexivity.
Qed.

Lemma resampleid_Fin (N : nat) (rand : nat -> Q) (qs : list Q) :
  (1 <= N)%nat ->
  resampleid N rand (map Fin qs) = map Fin (Qtargets N rand qs).
Proof.
  intros HN. pose proof (Qnat_pos N HN) as Hpos.
  unfold resampleid, Qtargets. rewrite resample_base_Fin.
  apply list_eq. intros i.
  rewrite list_lookup_imap, !list_lookup_fmap, list_lookup_imap.
  destruct (Qbase N qs !! i) as [b |]; simpl; [| reflexivity].
  rewrite Qeq_bool_false by lra. reflexivity.
Qed.

Lemma Qbase_length (N : nat) (qs : list Q) : length (Qbase N qs) = length qs.
Proof.
  unfold Qbase. rewrite length_map, Qcumsum_length, length_map. reflexivity.
Qed.

Lemma Qtargets_length (N : nat) (rand : nat -> Q) (qs : list Q) :
  length (Qtargets N rand qs) = length qs.
Proof.
  unfold Qtargets. rewrite length_imap. apply Qbase_length.
Qed.

Lemma Qbase_lookup (N : nat) (qs : list Q) (i : nat) (b : Q) :
  (1 <= N)%nat -> Qbase N qs !! i = Some b -> b == Qnat i / Qnat N.
Proof.
  intros HN H. pose proof (Qnat_pos N HN) as Hpos.
  unfold Qbase in H. rewrite list_lookup_fmap in H.
  destruct (Qcumsum (map (fun q => q * 0 + inv_N N) qs) !! i) as [c |] eqn:Hc;
    [| discriminate].
  simpl in H. injection H as <-.
  pose proof (lookup_lt_Some _ _ _ Hc) as Hi.
  rewrite Qcumsum_length, length_map in Hi.
  rewrite (Qcumsum_lookup _ _ _ Hc).
  rewrite (Qsum_const _ (inv_N N)).
  - rewrite length_take, length_map.
    replace (S i `min` length qs)%nat with (S i) by lia.
    rewrite Qnat_S. unfold inv_N. field. lra.
  - apply Forall_take, Forall_forall. intros q Hq.
    apply list_elem_of_In, in_map_iff in Hq. destruct Hq as (q0 & <- & _).
    ring.
Qed.

Lemma Qtargets_lookup (N : nat) (rand : nat -> Q) (qs : list Q) (i : nat) (t : Q) :
  (1 <= N)%nat -> Qtargets N rand qs !! i = Some t -> t == target N rand i.
Proof.
  intros HN H. unfold Qtargets in H. rewrite list_lookup_imap in H.
  destruct (Qbase N qs !! i) as [b |] eqn:Hb; [| discriminate].
  simpl in H. injection H as <-.
  rewrite (Qbase_lookup N qs i b HN Hb). unfold target. reflexivity.
Qed.

Lemma target_range (N : nat) (rand : nat -> Q) (i : nat) :
  (1 <= N)%nat -> 0 <= rand i < 1 ->
  Qnat i / Qnat N <= target N rand i
  /\ target N rand i < (Qnat i + 1) / Qnat N.
Proof.
  intros HN [Hlo Hhi]. pose proof (Qnat_pos N HN) as Hpos.
  unfold target.
  assert (H0 : 0 <= rand i / Qnat N).
  { apply Qle_shift_div_l; lra. }
  assert (H1 : rand i / Qnat N < 1 / Qnat N).
  { unfold Qdiv. apply Qmult_lt_compat_r; [| exact Hhi].
    apply Qinv_lt_0_compat. exact Hpos. }
  split; [lra |].
  assert (E : (Qnat i + 1) / Qnat N == Qnat i / Qnat N + 1 / Qnat N)
    by (field; lra).
  lra.
Qed.

(** The targets of later slots are larger. *)
Lemma target_mono (N : nat) (rand : nat -> Q) (i i' : nat) :
  (1 <= N)%nat -> (forall k, 0 <= rand k < 1) -> (i < i')%nat ->
  target N rand i < target N rand i'.
Proof.
  intros HN Hr Hlt. pose proof (Qnat_pos N HN) as Hpos.
  destruct (target_range N rand i HN (Hr i)) as [_ Hhi].
  destruct (target_range N rand i' HN (Hr i')) as [Hlo _].
  assert (Hle : (Qnat i + 1) / Qnat N <= Qnat i' / Qnat N).
  { apply Qmult_le_compat_r; [apply Qnat_lt; exact Hlt |].
    apply Qinv_le_0_compat. lra. }
  lra.
Qed.

(** Every target is below 1. *)
Lemma target_lt_1 (N : nat) (rand : nat -> Q) (i : nat) :
  (1 <= N)%nat -> 0 <= rand i < 1 -> (i < N)%nat -> target N rand i < 1.
Proof.
  intros HN Hr Hi. pose proof (Qnat_pos N HN) as Hpos.
  destruct (target_range N rand i HN Hr) as [_ Hhi].
  assert (Hle : (Qnat i + 1) / Qnat N <= 1).
  { apply Qle_shift_div_r; [lra |]. pose proof (Qnat_lt i N Hi). lra. }
  lra.
Qed.

(** ** The indices the resampler selects *)

Lemma fgt_Fin (t c : Q) : fgt (Fin t) (Fin c) = Qlt_bool c t.
Proof. reflexivity. Qed.

(** For finite cumulative weights [cs] and non-decreasing finite targets
    [ts]: slot [i] receives an index [j] such that every entry before [j]
    is below the target of the slot and, unless [j] is the last index,
    entry [j] is not. *)
Lemma select_inds_finite (N : nat) (cs ts : list Q) :
  length cs = N -> length ts = N ->
  (forall i i' a b, (i <= i')%nat ->
     ts !! i = Some a -> ts !! i' = Some b -> a <= b) ->
  exists inds,
    select_inds N (map Fin cs) (map Fin ts) = inr inds
    /\ length inds = N
    /\ forall i j t, inds !! i = Some j -> ts !! i = Some t ->
         (j < N)%nat
         /\ (forall k c, (k < j)%nat -> cs !! k = Some c -> c < t)
         /\ ((j < N - 1)%nat -> exists c, cs !! j = Some c /\ t <= c).
Proof.
  intros Hcs Hts Hmono. unfold select_inds.
  destruct (for_range_inv
    (fun ip (st : nat * list nat) =>
       length (snd st) = ip /\ (fst st <= N - 1)%nat
       /\ (forall k c i' t, (k < fst st)%nat -> cs !! k = Some c ->
             (ip <= i')%nat -> ts !! i' = Some t -> c < t)
       /\ (forall i j t, snd st !! i = Some j -> ts !! i = Some t ->
             (j < N)%nat
             /\ (forall k c, (k < j)%nat -> cs !! k = Some c -> c < t)
             /\ ((j < N - 1)%nat -> exists c, cs !! j = Some c /\ t <= c)))
    (fun ip (st : nat * list nat) =>
       let* ind := scan (map Fin cs) (map Fin ts) ip (fst st) in
       ret (ind, snd st ++ [ind]))
    N (0%nat, [])) as (st & Hrun & Hl & _ & _ & Hspec).
  - simpl. refine (conj eq_refl (conj _ (conj _ _))); [lia | |].
    + intros k c i' t Hk. lia.
    + intros i j t Hi. rewrite lookup_nil in Hi. discriminate.
  - intros ip [ind inds] Hip (Hl & Hind & Hbelow & Hspec).
    cbn [fst snd] in *.
    destruct (lookup_lt_is_Some_2 ts ip ltac:(lia)) as [t Ht].
    assert (Hidx : map Fin ts !! ip = Some (Fin t)).
    { rewrite list_lookup_fmap, Ht. reflexivity. }
    destruct (scan_spec (map Fin cs) (map Fin ts) ip (Fin t) ind Hidx)
      as (j & Hj & Hle & Hmax & Hpass & Hstop).
    rewrite length_map in Hmax, Hstop.
    rewrite Hj. cbn [bind]. eexists. split; [reflexivity |].
    cbn [fst snd].
    assert (Hbefore : forall k c, (k < j)%nat -> cs !! k = Some c -> c < t).
    { intros k c Hk Hc. destruct (decide (k < ind)%nat) as [Hlt | Hge].
      - apply (Hbelow k c ip t Hlt Hc (Nat.le_refl ip) Ht).
      - destruct (Hpass k ltac:(lia)) as (c' & Hc' & Hgt).
        rewrite list_lookup_fmap, Hc in Hc'. injection Hc' as <-.
        rewrite fgt_Fin in Hgt. apply Qlt_bool_iff. exact Hgt. }
    refine (conj _ (conj _ (conj _ _))).
    + rewrite length_app. simpl. lia.
    + lia.
    + intros k c i' t' Hk Hc Hi' Ht'.
      apply (Qlt_le_trans _ t); [apply (Hbefore k c Hk Hc) |].
      apply (Hmono ip i' t t'); [lia | exact Ht | exact Ht'].
    + intros i j' t' Hi Ht'.
      destruct (decide (i < length inds)%nat) as [Hlt | Hge].
      * rewrite lookup_app_l in Hi by exact Hlt.
        apply (Hspec i j' t' Hi Ht').
      * rewrite lookup_app_r in Hi by lia.
        destruct (i - length inds)%nat as [| d] eqn:Hd; [| discriminate].
        simpl in Hi. injection Hi as <-.
        assert (i = ip) by lia. subst i.
        rewrite Ht in Ht'. injection Ht' as <-.
        refine (conj _ (conj Hbefore _)); [lia |].
        intros Hjn. destruct (Hstop ltac:(lia)) as (c' & Hc' & Hgt).
        rewrite list_lookup_fmap in Hc'.
        destruct (cs !! j) as [c |] eqn:Hc; [| discriminate].
        simpl in Hc'. injection Hc' as <-.
        exists c. split; [reflexivity |].
        rewrite fgt_Fin in Hgt. apply Qlt_bool_false. exact Hgt.
  - rewrite Hrun. exists (snd st). simpl. auto.
Qed.

Lemma Qtargets_mono (N : nat) (rand : nat -> Q) (qs : list Q) :
  (1 <= N)%nat -> (forall k, 0 <= rand k < 1) ->
  forall i i' a b, (i <= i')%nat ->
    Qtargets N rand qs !! i = Some a -> Qtargets N rand qs !! i' = Some b ->
    a <= b.
Proof.
  intros HN Hr i i' a b Hle Ha Hb.
  destruct (decide (i = i')) as [-> | Hne].
  - rewrite Ha in Hb. injection Hb as <-. apply Qle_refl.
  - rewrite (Qtargets_lookup N rand qs i a HN Ha).
    rewrite (Qtargets_lookup N rand qs i' b HN Hb).
    apply Qlt_le_weak. apply target_mono; [exact HN | exact Hr | lia].
Qed.

Lemma scan_start_app (inds : list nat) (x : nat) (i : nat) :
  (i <= length inds)%nat -> scan_start (inds ++ [x]) i = scan_start inds i.
Proof.
  intros Hi. destruct i as [| i']; simpl; [reflexivity |].
  rewrite lookup_app_l by lia. reflexivity.
Qed.

Lemma scan_start_last (inds : list nat) (x : nat) :
  scan_start (inds ++ [x]) (S (length inds)) = x.
Proof.
  simpl. rewrite lookup_app_r by lia. rewrite Nat.sub_diag. reflexivity.
Qed.

(** The selection loop on any two lists of N floats.  The index of slot
    [i] is not below the index of the slot before; every entry from there
    up to it is below the target of the slot; and, unless it is the last
    index N - 1, the entry at it is not. *)
Lemma select_inds_scan (N : nat) (wcum ids : list float) :
  length wcum = N -> length ids = N ->
  exists inds,
    select_inds N wcum ids = inr inds
    /\ length inds = N
    /\ forall i j t, inds !! i = Some j -> ids !! i = Some t ->
         (scan_start inds i <= j)%nat /\ (j < N)%nat
         /\ (forall k c, (scan_start inds i <= k < j)%nat ->
               wcum !! k = Some c -> fgt t c = true)
         /\ ((j < N - 1)%nat -> exists c, wcum !! j = Some c /\ fgt t c = false).
Proof.
  intros Hw Hids. unfold select_inds.
  destruct (for_range_inv
    (fun ip (st : nat * list nat) =>
       length (snd st) = ip /\ (fst st <= N - 1)%nat
       /\ fst st = scan_start (snd st) ip
       /\ (forall i j t, snd st !! i = Some j -> ids !! i = Some t ->
             (scan_start (snd st) i <= j)%nat /\ (j < N)%nat
             /\ (forall k c, (scan_start (snd st) i <= k < j)%nat ->
                   wcum !! k = Some c -> fgt t c = true)
             /\ ((j < N - 1)%nat ->
                   exists c, wcum !! j = Some c /\ fgt t c = false)))
    (fun ip (st : nat * list nat) =>
       let* ind := scan wcum ids ip (fst st) in
       ret (ind, snd st ++ [ind]))
    N (0%nat, [])) as (st & Hrun & Hl & _ & _ & Hspec).
  - simpl. refine (conj eq_refl (conj _ (conj eq_refl _))); [lia |].
    intros i j t Hi. rewrite lookup_nil in Hi. discriminate.
  - intros ip [ind inds] Hip (Hl & Hind & Hstart & Hspec).
    cbn [fst snd] in *.
    destruct (lookup_lt_is_Some_2 ids ip ltac:(lia)) as [t Ht].
    destruct (scan_spec wcum ids ip t ind Ht)
      as (j & Hj & Hle & Hmax & Hpass & Hstop).
    rewrite Hw in Hmax, Hstop.
    rewrite Hj. cbn [bind]. eexists. split; [reflexivity |].
    cbn [fst snd].
    refine (conj _ (conj _ (conj _ _))).
    + rewrite length_app. simpl. lia.
    + lia.
    + subst ip. rewrite scan_start_last. reflexivity.
    + intros i j' t' Hi Ht'.
      destruct (decide (i < length inds)%nat) as [Hlt | Hge].
      * rewrite lookup_app_l in Hi by exact Hlt.
        rewrite scan_start_app by lia.
        apply (Hspec i j' t' Hi Ht').
      * rewrite lookup_app_r in Hi by lia.
        destruct (i - length inds)%nat as [| d] eqn:Hd; [| discriminate].
        simpl in Hi. injection Hi as <-.
        assert (i = ip) by lia. subst i.
        rewrite Ht in Ht'. injection Ht' as <-.
        rewrite scan_start_app by lia. rewrite <- Hstart.
        refine (conj Hle (conj _ (conj _ _))); [lia | |].
        -- intros k c Hk Hc. destruct (Hpass k Hk) as (c' & Hc' & Hgt).
           rewrite Hc in Hc'. injection Hc' as <-. exact Hgt.
        -- intros Hjn. apply Hstop. exact Hjn.
  - rewrite Hrun. exists (snd st). simpl. auto.
Qed.

Lemma rounded_cumsum_from_length (rnd : Q -> Q) (acc : float) (ws : list float) :
  length (Rounded.cumsum_from rnd acc ws) = length ws.
Proof.
  revert acc. induction ws as [| v ws IH]; intros acc; simpl;
    [reflexivity | rewrite IH; reflexivity].
Qed.

Lemma rounded_np_cumsum_length (rnd : Q -> Q) (ws : list float) :
  length (Rounded.np_cumsum rnd ws) = length ws.
Proof.
  destruct ws as [| v ws]; simpl; [reflexivity |].
  rewrite rounded_cumsum_from_length. reflexivity.
Qed.

Lemma rounded_resample_base_length (rnd : Q -> Q) (N : nat) (pw : list float) :
  length (Rounded.resample_base rnd N pw) = length pw.
Proof.
  unfold Rounded.resample_base.
  rewrite length_map, rounded_np_cumsum_length, length_map. reflexivity.
Qed.

Lemma rounded_resampleid_length (rnd : Q -> Q) (N : nat) (rand : nat -> Q)
    (pw : list float) :
  length (Rounded.resampleid rnd N rand pw) = length pw.
Proof.
  unfold Rounded.resampleid.
  rewrite length_imap. apply rounded_resample_base_length.
Qed.

(** What the resampler does when the branch is taken, whatever the
    rounding and whatever the weights. *)
Lemma rounded_resampling_spec (rnd : Q -> Q) (N : nat) (rand : nat -> Q)
    (ps : list Particle.t) :
  length ps = N ->
  exists ps1 inds,
    Rounded.normalize_weight rnd N ps = inr ps1
    /\ length ps1 = N
    /\ select_inds N (Rounded.np_cumsum rnd (map Particle.w ps1))
         (Rounded.resampleid rnd N rand (map Particle.w ps1)) = inr inds
    /\ length inds = N
    /\ (flt (Rounded.Neff rnd (map Particle.w ps1)) (Rounded.NTH rnd N) = true ->
        Rounded.resampling rnd N rand ps
        = for_range N (Rounded.copy_step rnd N inds) ps1)
    /\ (forall i, (i < N)%nat ->
          exists b,
            Rounded.resample_base rnd N (map Particle.w ps1) !! i = Some b
            /\ Rounded.resampleid rnd N rand (map Particle.w ps1) !! i
               = Some (Rounded.fadd rnd b
                         (Rounded.np_div rnd (Fin (rand i)) (Fin (Qnat N)))))
    /\ forall i j t,
         inds !! i = Some j ->
         Rounded.resampleid rnd N rand (map Particle.w ps1) !! i = Some t ->
         (scan_start inds i <= j)%nat /\ (j < N)%nat
         /\ (forall k c, (scan_start inds i <= k < j)%nat ->
               Rounded.np_cumsum rnd (map Particle.w ps1) !! k = Some c ->
               fgt t c = true)
         /\ ((j < N - 1)%nat ->
               exists c, Rounded.np_cumsum rnd (map Particle.w ps1) !! j = Some c
                         /\ fgt t c = false).
Proof.
  intros Hlen.
  destruct (rounded_normalize_weight_total rnd N ps Hlen) as (f & Hn).
  pose proof (rounded_normalize_weight_length rnd N ps _ Hlen Hn) as Hl1.
  set (ps1 := map (fun p => Particle.set_w p (f p)) ps) in *.
  set (pw := map Particle.w ps1).
  assert (Hpw : length pw = N) by (unfold pw; rewrite length_map; exact Hl1).
  destruct (select_inds_scan N (Rounded.np_cumsum rnd pw)
              (Rounded.resampleid rnd N rand pw)) as (inds & Hsel & Hil & Hspec).
  { rewrite rounded_np_cumsum_length. exact Hpw. }
  { rewrite rounded_resampleid_length. exact Hpw. }
  exists ps1, inds.
  split; [exact Hn |]. split; [exact Hl1 |]. split; [exact Hsel |].
  split; [exact Hil |]. split; [| split; [| exact Hspec]].
  - intros Hflt. unfold Rounded.resampling. rewrite Hn. cbn [bind].
    rewrite (weights_spec N ps1 Hl1). cbn [bind].
    change (map Particle.w ps1) with pw in Hflt |- *.
    rewrite Hflt, Hsel. cbn [bind]. rewrite Hil. reflexivity.
  - intros i Hi.
    destruct (lookup_lt_is_Some_2 (Rounded.resample_base rnd N pw) i) as [b Hb].
    { rewrite rounded_resample_base_length. lia. }
    exists b. split; [exact Hb |].
    unfold Rounded.resampleid. change (map Particle.w ps1) with pw.
    rewrite list_lookup_imap, Hb. reflexivity.
Qed.

(** When the cumulative sums and the targets are finite and the targets do
    not decrease, the index of a slot is the smallest one whose entry is
    not below the target, or the last one. *)
Lemma select_inds_smallest (N : nat) (wcum ids : list float) (inds : list nat)
    (cs ts : list Q) :
  length wcum = N -> length ids = N ->
  select_inds N wcum ids = inr inds ->
  wcum = map Fin cs -> ids = map Fin ts ->
  (forall i i' a b, (i <= i')%nat ->
     ts !! i = Some a -> ts !! i' = Some b -> a <= b) ->
  forall i j t, inds !! i = Some j -> ts !! i = Some t ->
    (forall k c, (k < j)%nat -> cs !! k = Some c -> c < t)
    /\ ((j < N - 1)%nat -> exists c, cs !! j = Some c /\ t <= c).
Proof.
  intros Hw Hids Hsel -> -> Hmono i j t Hj Ht.
  rewrite length_map in Hw, Hids.
  destruct (select_inds_finite N cs ts Hw Hids Hmono) as (inds' & Hsel' & _ & Hspec).
  rewrite Hsel in Hsel'. injection Hsel' as <-.
  destruct (Hspec i j t Hj Ht) as (_ & H1 & H2). split; assumption.
Qed.

(** C5, as the code has it, whatever the rounding [rnd] and whatever the
    weights.  The resampler draws one random number per output slot,
    [rand 0 .. rand (N-1)]; the target of slot i is the base of the slot
    plus [rand i / N], which in exact arithmetic is i/N + rand i / N.  The
    scan for slot i starts at the index selected for slot i - 1 (at 0 for
    slot 0) and stops at the first index j from there with
    wcum[j] >= target i, or at the last index N - 1 when there is none;
    wcum is the cumulative sum of the normalised weights.  When the targets
    do not decrease, j is the smallest index of all with
    wcum[j] >= target i, or N - 1.  When Neff < NTH the particles are
    overwritten from these indices. *)
Theorem resampling_selects_smallest_index (rnd : Q -> Q) (N : nat)
    (rand : nat -> Q) (ps : list Particle.t) :
  length ps = N ->
  exists ps1 inds,
    Rounded.normalize_weight rnd N ps = inr ps1
    /\ select_inds N (Rounded.np_cumsum rnd (map Particle.w ps1))
         (Rounded.resampleid rnd N rand (map Particle.w ps1)) = inr inds
    /\ length inds = N
    /\ (flt (Rounded.Neff rnd (map Particle.w ps1)) (Rounded.NTH rnd N) = true ->
        Rounded.resampling rnd N rand ps
        = for_range N (Rounded.copy_step rnd N inds) ps1)
    /\ (forall i, (i < N)%nat ->
          exists b,
            Rounded.resample_base rnd N (map Particle.w ps1) !! i = Some b
            /\ Rounded.resampleid rnd N rand (map Particle.w ps1) !! i
               = Some (Rounded.fadd rnd b
                         (Rounded.np_div rnd (Fin (rand i)) (Fin (Qnat N)))))
    /\ (forall i j t,
          inds !! i = Some j ->
          Rounded.resampleid rnd N rand (map Particle.w ps1) !! i = Some t ->
          (scan_start inds i <= j)%nat /\ (j < N)%nat
          /\ (forall k c, (scan_start inds i <= k < j)%nat ->
                Rounded.np_cumsum rnd (map Particle.w ps1) !! k = Some c ->
                fgt t c = true)
          /\ ((j < N - 1)%nat ->
                exists c, Rounded.np_cumsum rnd (map Particle.w ps1) !! j = Some c
                          /\ fgt t c = false))
    /\ (forall cs ts,
          Rounded.np_cumsum rnd (map Particle.w ps1) = map Fin cs ->
          Rounded.resampleid rnd N rand (map Particle.w ps1) = map Fin ts ->
          (forall i i' a b, (i <= i')%nat ->
             ts !! i = Some a -> ts !! i' = Some b -> a <= b) ->
          forall i j t, inds !! i = Some j -> ts !! i = Some t ->
            (forall k c, (k < j)%nat -> cs !! k = Some c -> c < t)
            /\ ((j < N - 1)%nat -> exists c, cs !! j = Some c /\ t <= c))
    /\ (forall qs i t, (1 <= N)%nat ->
          resampleid N rand (map Fin qs) !! i = Some t ->
          exists q, t = Fin q /\ q == target N rand i).
Proof.
  intros Hlen.
  destruct (rounded_resampling_spec rnd N rand ps Hlen)
    as (ps1 & inds & Hn & Hl1 & Hsel & Hil & Hres & Hids & Hscan).
  exists ps1, inds.
  split; [exact Hn |]. split; [exact Hsel |]. split; [exact Hil |].
  split; [exact Hres |]. split; [exact Hids |]. split; [exact Hscan |].
  split.
  - intros cs ts Hcs Hts Hmono.
    apply (select_inds_smallest N (Rounded.np_cumsum rnd (map Particle.w ps1))
             (Rounded.resampleid rnd N rand (map Particle.w ps1)) inds cs ts);
      try assumption.
    + rewrite rounded_np_cumsum_length, length_map. exact Hl1.
    + rewrite rounded_resampleid_length, length_map. exact Hl1.
  - intros qs i t HN Ht.
    rewrite (resampleid_Fin N rand qs HN), list_lookup_fmap in Ht.
    destruct (Qtargets N rand qs !! i) as [q |] eqn:Hq; [| discriminate].
    simpl in Ht. injection Ht as <-.
    exists q. split; [reflexivity |].
    apply (Qtargets_lookup N rand qs i q HN Hq).
Qed.

Lemma resampling_selects_smallest_index_witness :
  exists ps1 inds,
    Rounded.normalize_weight round64 100 dominant = inr ps1
    /\ select_inds 100 (Rounded.np_cumsum round64 (map Particle.w ps1))
         (Rounded.resampleid round64 100 rand_half (map Particle.w ps1))
       = inr inds
    /\ length inds = 100%nat
    /\ Rounded.resampling round64 100 rand_half dominant
       = for_range 100 (Rounded.copy_step round64 100 inds) ps1.
Proof.
  destruct (resampling_selects_smallest_index round64 100 rand_half dominant)
    as (ps1 & inds & Hn & Hsel & Hil & Hres & _).
  - vm_compute. reflexivity.
  - exists ps1, inds.
    split; [exact Hn |]. split; [exact Hsel |]. split; [exact Hil |].
    apply Hres. vm_compute in Hn. injection Hn as <-.
    vm_compute. reflexivity.
Defined.

(** C5, as the claim has it, fails: the offsets are drawn per slot, so
    the targets need not be r0 + i/N for one offset r0.  On a set that
    triggers resampling, with rand 0 = 0 and rand 1 = 1/2, the first two
    targets are 0 and 3/200. *)
Lemma resampling_offsets_are_per_slot :
  exists ps1 t0 t1,
    normalize_weight N_PARTICLE dominant = inr ps1
    /\ flt (Neff (map Particle.w ps1)) (Fin (NTH N_PARTICLE)) = true
    /\ resampleid N_PARTICLE rand_two (map Particle.w ps1) !! 0%nat = Some (Fin t0)
    /\ resampleid N_PARTICLE rand_two (map Particle.w ps1) !! 1%nat = Some (Fin t1)
    /\ ~ (exists r0, t0 == r0 + Qnat 0 / Qnat N_PARTICLE
                     /\ t1 == r0 + Qnat 1 / Qnat N_PARTICLE).
Proof.
  eexists. eexists. eexists. split; [vm_compute; reflexivity |].
  split; [vm_compute; reflexivity |].
  split; [vm_compute; reflexivity |].
  split; [vm_compute; reflexivity |].
  intros (r0 & H0 & H1).
  assert (E0 : Qnat 0 / Qnat N_PARTICLE == 0) by (vm_compute; reflexivity).
  assert (E1 : Qnat 1 / Qnat N_PARTICLE == 1 # 100) by (vm_compute; reflexivity).
  rewrite E0 in H0. rewrite E1 in H1. lra.
Qed.

(** ** Aliasing after resampling *)

(** C3 fails on the code.  Resampling the set with all the weight on
    particle 0 leaves the output particles 1 and 2 with the same landmark
    arrays, those of particle 0: writing an entry of the covariance array,
    or of the mean array, through particle 1 changes what particle 2 reads
    there. *)
Theorem resampling_shares_landmark_arrays :
  exists ps' p1 p2 h' h'',
    resampling N_PARTICLE rand_half dominant = inr ps'
    /\ ps' !! 1%nat = Some p1 /\ ps' !! 2%nat = Some p2
    /\ Particle.lm p1 = Particle.lm p2
    /\ Particle.lmP p1 = Particle.lmP p2
    /\ get_lmP initial_heap p2 0 0 = inr 0
    /\ set_lmP initial_heap p1 0 0 5 = inr h'
    /\ get_lmP h' p2 0 0 = inr 5
    /\ get_lm initial_heap p2 0 0 = inr 0
    /\ set_lm initial_heap p1 0 0 3 = inr h''
    /\ get_lm h'' p2 0 0 = inr 3.
Proof.
  eexists. eexists. eexists. eexists. eexists.
  split; [vm_compute; reflexivity |].
  split; [reflexivity |]. split; [reflexivity |].
  split; [reflexivity |]. split; [reflexivity |].
  split; [reflexivity |].
  split; [vm_compute; reflexivity |].
  split; [vm_compute; reflexivity |].
  split; [reflexivity |].
  split; [vm_compute; reflexivity |].
  vm_compute. reflexivity.
Qed.

(** The overwriting loop reads its sources from the particles it is
    overwriting.  On [skewed] slot 2 selects particle 1 (x = 8), but slot 1
    has by then been overwritten with particle 0 (x = 7), and slot 2
    receives x = 7. *)
Lemma resampling_reads_overwritten_source :
  exists ps1 inds ps' src p,
    normalize_weight N_PARTICLE skewed = inr ps1
    /\ select_inds N_PARTICLE (np_cumsum (map Particle.w ps1))
         (resampleid N_PARTICLE rand_half (map Particle.w ps1)) = inr inds
    /\ inds !! 2%nat = Some 1%nat
    /\ ps1 !! 1%nat = Some src /\ Particle.x src = 8
    /\ resampling N_PARTICLE rand_half skewed = inr ps'
    /\ ps' !! 2%nat = Some p /\ Particle.x p = 7.
Proof.
  eexists. eexists. eexists. eexists. eexists.
  split; [vm_compute; reflexivity |].
  split; [vm_compute; reflexivity |].
  split; [reflexivity |]. split; [reflexivity |]. split; [reflexivity |].
  split; [vm_compute; reflexivity |].
  split; reflexivity.
Qed.

(** * Further properties of the code *)

(** ** The motion model on malformed and on idle inputs *)

Lemma matmul_mismatch (a b : matrix) :
  ncols a <> length b -> matmul a b = inl ValueError.
Proof.
  intros H. unfold matmul.
  rewrite (proj2 (Nat.eqb_neq _ _) H), andb_false_r. reflexivity.
Qed.

(** X4.  A pose array with fewer than three rows makes the motion model
    raise IndexError (at [x[2, 0]]), whatever the control array is; with a
    pose array of three rows, a control array whose number of rows is not
    two makes it raise ValueError (at [B @ u]). *)
Theorem motion_model_shape_errors (cos sin : Q -> Q) (x u : matrix)
    (vx vy vyaw : Q) :
  ((length x < 3)%nat -> motion_model cos sin x u = inl IndexError)
  /\ (length u <> 2%nat ->
      motion_model cos sin (pose_array vx vy vyaw) u = inl ValueError).
Proof.
  split.
  - intros Hx. unfold motion_model, mget, index.
    rewrite (lookup_ge_None_2 x 2) by lia. reflexivity.
  - intros Hu. unfold motion_model.
    change (mget (pose_array vx vy vyaw) 2 0) with (inr vyaw : res Q).
    cbn [bind].
    destruct (matmul [[1; 0; 0]; [0; 1; 0]; [0; 0; 1]] (pose_array vx vy vyaw))
      as [e | Fx] eqn:E; [cbv in E; discriminate |].
    cbn [bind]. rewrite matmul_mismatch; [reflexivity |].
    simpl. intros H. apply Hu. symmetry. exact H.
Qed.

Lemma motion_model_shape_errors_witness :
  motion_model cos_at_0 sin_at_0 [[1]; [2]] (control_array 1 0) = inl IndexError
  /\ motion_model cos_at_0 sin_at_0 (pose_array 1 2 0) [[1]; [0]; [0]]
     = inl ValueError.
Proof.
  split.
  - apply (proj1 (motion_model_shape_errors cos_at_0 sin_at_0 [[1]; [2]]
                    (control_array 1 0) 1 2 0)).
    simpl. lia.
  - apply (proj2 (motion_model_shape_errors cos_at_0 sin_at_0 [[1]; [2]]
                    [[1]; [0]; [0]] 1 2 0)).
    simpl. lia.
Defined.

(** X5.  Up to time 3 [calc_input] commands no motion, and the motion
    model then returns the position as it is and the yaw normalised;
    after time 3 the command is 1 m/s and 0.1 rad/s, which moves the pose
    by [DT * cos yaw] and [DT * sin yaw] and turns it by [DT * 0.1]. *)
Theorem idle_until_time_3 (cos sin : Q -> Q) (time vx vy vyaw : Q) :
  exists vx' vy' vyaw',
    motion_model cos sin (pose_array vx vy vyaw) (calc_input time)
    = inr (pose_array vx' vy' vyaw')
    /\ (time <= 3 -> vx' == vx /\ vy' == vy /\ vyaw' == pi_2_pi vyaw)
    /\ (3 < time ->
        vx' == vx + DT * cos vyaw /\ vy' == vy + DT * sin vyaw
        /\ vyaw' == pi_2_pi (vyaw + DT * (1 # 10))).
Proof.
  unfold calc_input.
  destruct (Qle_bool time 3) eqn:Ht.
  - apply Qle_bool_iff in Ht.
    destruct (motion_model_pose cos sin vx vy vyaw 0 0)
      as (vx' & vy' & vyaw' & Hm & Hx & Hy & Hw).
    exists vx', vy', vyaw'. split; [exact Hm |]. split.
    + intros _. split; [rewrite Hx; ring |]. split; [rewrite Hy; ring |].
      transitivity (pi_2_pi (vyaw + DT * 0)); [exact Hw |].
      apply pi_2_pi_comp. ring.
    + intros Hgt. lra.
  - assert (Hgt : 3 < time).
    { apply Qnot_le_lt. intros Hle. apply Qle_bool_iff in Hle. congruence. }
    destruct (motion_model_pose cos sin vx vy vyaw 1 (1 # 10))
      as (vx' & vy' & vyaw' & Hm & Hx & Hy & Hw).
    exists vx', vy', vyaw'. split; [exact Hm |]. split.
    + intros Hle. lra.
    + intros _. split; [rewrite Hx; ring |]. split; [rewrite Hy; ring |].
      exact Hw.
Qed.

Lemma idle_until_time_3_witness :
  exists vx' vy' vyaw',
    motion_model cos_at_0 sin_at_0 (pose_array 4 5 0) (calc_input 2)
    = inr (pose_array vx' vy' vyaw')
    /\ vx' == 4 /\ vy' == 5 /\ vyaw' == pi_2_pi 0.
Proof.
  destruct (idle_until_time_3 cos_at_0 sin_at_0 2 4 5 0)
    as (vx' & vy' & vyaw' & Hm & Hidle & _).
  exists vx', vy', vyaw'. split; [exact Hm |].
  apply Hidle. discriminate.
Defined.

(** ** Prediction, particle by particle *)

Lemma predict_step_spec (cos sin : Q -> Q) (randn : nat -> Q * Q) (v omega : Q)
    (i : nat) (ps : list Particle.t) (p : Particle.t) :
  ps !! i = Some p ->
  exists p',
    predict_step cos sin randn (control_array v omega) i ps
    = inr (<[i := p']> ps)
    /\ predicted cos sin v omega (randn i) p p'.
Proof.
  intros Hp. unfold predict_step.
  rewrite (index_lookup _ _ _ Hp). cbn [bind].
  destruct (randn i) as [n1 n2]. run_arrays.
  match goal with
  | |- context [motion_model cos sin [[?a]; [?b]; [?c]] [[?d]; [?e]]] =>
      destruct (motion_model_pose cos sin a b c d e)
        as (vx & vy & vyaw & Hm & Hx & Hy & Hw)
  end.
  unfold pose_array, control_array in Hm. rewrite Hm.
  exists (Particle.set_pose p vx vy vyaw). split; [reflexivity |].
  unfold predicted. simpl.
  split; [reflexivity |]. split; [reflexivity |]. split; [reflexivity |].
  split; [rewrite Hx; ring |]. split; [rewrite Hy; ring |].
  rewrite Hw. apply pi_2_pi_comp. ring.
Qed.

Lemma predict_particles_spec (N : nat) (cos sin : Q -> Q)
    (randn : nat -> Q * Q) (v omega : Q) (ps : list Particle.t) :
  length ps = N ->
  exists ps',
    predict_particles N cos sin randn ps (control_array v omega) = inr ps'
    /\ length ps' = N
    /\ forall i p, ps !! i = Some p ->
         exists p', ps' !! i = Some p'
                    /\ predicted cos sin v omega (randn i) p p'.
Proof.
  intros Hlen. unfold predict_particles.
  destruct (for_range_inv
    (fun i t =>
       length t = N
       /\ (forall k p, (k < i)%nat -> ps !! k = Some p ->
             exists p', t !! k = Some p'
                        /\ predicted cos sin v omega (randn k) p p')
       /\ (forall k, (i <= k)%nat -> t !! k = ps !! k))
    (predict_step cos sin randn (control_array v omega)) N ps)
    as (ps' & Hrun & Hl & Hdone & _).
  - split; [exact Hlen |]. split; [intros k p Hk; lia | reflexivity].
  - intros i t Hi (Hl & Hdone & Hrest).
    destruct (lookup_lt_is_Some_2 ps i ltac:(lia)) as [p Hp].
    assert (Htp : t !! i = Some p) by (rewrite Hrest by lia; exact Hp).
    destruct (predict_step_spec cos sin randn v omega i t p Htp)
      as (p' & Hs & Hpred).
    exists (<[i := p']> t). split; [exact Hs |].
    split; [rewrite length_insert; exact Hl |]. split.
    + intros k q Hk Hq. destruct (decide (k = i)) as [-> | Hne].
      * rewrite Hp in Hq. injection Hq as <-.
        exists p'. split; [| assumption].
        apply list_lookup_insert_eq. lia.
      * rewrite list_lookup_insert_ne by congruence.
        apply Hdone; [lia | exact Hq].
    + intros k Hk. rewrite list_lookup_insert_ne by lia.
      apply Hrest. lia.
  - exists ps'. split; [exact Hrun |]. split; [exact Hl |].
    intros i p Hp. apply Hdone; [| exact Hp].
    apply lookup_lt_Some in Hp. lia.
Qed.

(** X6.  Prediction works particle by particle: the new particle [i] is
    the old particle [i] moved by the control plus the noise drawn in
    iteration [i], and it keeps its weight and its landmark arrays.  No
    particle depends on another one. *)
Theorem predict_particles_pointwise (N : nat) (cos sin : Q -> Q)
    (randn : nat -> Q * Q) (v omega : Q) (ps : list Particle.t) :
  length ps = N ->
  exists ps',
    predict_particles N cos sin randn ps (control_array v omega) = inr ps'
    /\ length ps' = N
    /\ forall i p, ps !! i = Some p ->
         exists p', ps' !! i = Some p'
                    /\ predicted cos sin v omega (randn i) p p'.
Proof. apply predict_particles_spec. Qed.

Lemma predict_particles_pointwise_witness :
  exists ps' p',
    predict_particles 100 cos_at_0 sin_at_0 no_noise initial
      (control_array 1 (1 # 10)) = inr ps'
    /\ ps' !! 7%nat = Some p'
    /\ Particle.x p' == 1 # 10.
Proof.
  destruct (predict_particles_pointwise 100 cos_at_0 sin_at_0 no_noise
              1 (1 # 10) initial) as (ps' & Hrun & _ & Hspec).
  - vm_compute. reflexivity.
  - destruct (Hspec 7%nat _ eq_refl) as (p' & Hp' & Hpred).
    exists ps', p'. split; [exact Hrun |]. split; [exact Hp' |].
    destruct Hpred as (_ & _ & _ & Hx & _). rewrite Hx.
    vm_compute. reflexivity.
Defined.

(** ** Particle lists shorter than N *)

(** A loop whose body keeps an invariant for [m] turns and raises [e] in
    the next one raises [e]. *)
Lemma for_range_from_raise {S : Type} (I : nat -> S -> Prop)
    (body : nat -> S -> res S) (e : exn) (m n start : nat) (s : S) :
  (m < n)%nat ->
  I start s ->
  (forall i t, (start <= i < start + m)%nat -> I i t ->
     exists t', body i t = inr t' /\ I (Datatypes.S i) t') ->
  (forall t, I (start + m)%nat t -> body (start + m)%nat t = inl e) ->
  for_range_from start n body s = inl e.
Proof.
  revert n start s. induction m as [| m IH]; intros n start s Hmn H0 Hstep Hfail.
  - destruct n as [| n]; [lia |]. simpl.
    rewrite Nat.add_0_r in Hfail. rewrite (Hfail s H0). reflexivity.
  - destruct n as [| n]; [lia |]. simpl.
    destruct (Hstep start s ltac:(lia) H0) as (t & Hb & Ht).
    rewrite Hb. cbn [bind].
    apply (IH n (Datatypes.S start) t); [lia | exact Ht | |].
    + intros i u Hi. apply Hstep. lia.
    + intros u Hu. replace (Datatypes.S start + m)%nat
        with (start + Datatypes.S m)%nat in * by lia.
      apply Hfail. exact Hu.
Qed.

(** A loop over the slots [0 .. n-1] of a list with fewer than [n]
    entries, whose body reads slot [i] first and otherwise rewrites it,
    raises IndexError. *)
Lemma for_range_short (body : nat -> list Particle.t -> res (list Particle.t))
    (n : nat) (l : list Particle.t) :
  (length l < n)%nat ->
  (forall i t a, t !! i = Some a -> exists a', body i t = inr (<[i := a']> t)) ->
  (forall i t, t !! i = None -> body i t = inl IndexError) ->
  for_range n body l = inl IndexError.
Proof.
  intros Hlen Hok Hfail. unfold for_range.
  apply (for_range_from_raise (fun _ t => length t = length l)
           body IndexError (length l) n 0 l Hlen eq_refl).
  - intros i t Hi Ht.
    destruct (lookup_lt_is_Some_2 t i ltac:(lia)) as [a Ha].
    destruct (Hok i t a Ha) as (a' & Hb).
    eexists. split; [exact Hb |]. rewrite length_insert. exact Ht.
  - intros t Ht. apply Hfail. apply lookup_ge_None_2. simpl. lia.
Qed.

Lemma index_None {A : Type} (l : list A) (i : nat) :
  l !! i = None -> index l i = inl IndexError.
Proof. unfold index. intros ->. reflexivity. Qed.

Lemma predict_particles_short (N : nat) (cos sin : Q -> Q)
    (randn : nat -> Q * Q) (v omega : Q) (ps : list Particle.t) :
  (length ps < N)%nat ->
  predict_particles N cos sin randn ps (control_array v omega) = inl IndexError.
Proof.
  intros Hlen. unfold predict_particles. apply for_range_short.
  - exact Hlen.
  - intros i t a Ha.
    destruct (predict_step_ok cos sin randn v omega i t a Ha)
      as (vx & vy & vyaw & Hs).
    eexists. exact Hs.
  - intros i t Hn. unfold predict_step. rewrite (index_None _ _ Hn).
    reflexivity.
Qed.

Lemma normalize_weight_short (N : nat) (ps : list Particle.t) :
  (length ps < N)%nat -> normalize_weight N ps = inl IndexError.
Proof.
  intros Hlen. unfold normalize_weight.
  assert (Hreset :
    for_range N (fun i ps0 =>
        let* p := index ps0 i in
        ret (<[i := Particle.set_w p (Fin (inv_N N))]> ps0)) ps
    = inl IndexError).
  { apply for_range_short; [exact Hlen | |].
    - intros i t a Ha. rewrite (index_lookup _ _ _ Ha). eexists. reflexivity.
    - intros i t Hn. rewrite (index_None _ _ Hn). reflexivity. }
  destruct (is_zero (fsum (map Particle.w ps))) eqn:Hz.
  - destruct N as [| n]; [lia |].
    destruct ps as [| p ps'].
    + reflexivity.
    + unfold for_range at 1. simpl for_range_from.
      unfold index at 1. simpl lookup. simpl bind.
      rewrite (py_div_zero _ _ Hz). simpl bind. exact Hreset.
  - rewrite for_range_short; [reflexivity | exact Hlen | |].
    + intros i t a Ha. rewrite (index_lookup _ _ _ Ha). cbn [bind].
      rewrite (py_div_nonzero _ _ Hz). eexists. reflexivity.
    + intros i t Hn. rewrite (index_None _ _ Hn). reflexivity.
Qed.

(** X7.  On a particle list with fewer than N particles, prediction,
    weight normalisation, resampling and the whole step raise IndexError,
    whatever the weights are (a zero weight sum included). *)
Theorem short_particle_list_raises (N : nat) (cos sin : Q -> Q)
    (randn : nat -> Q * Q) (rand : nat -> Q) (v omega : Q) (z : matrix)
    (ps : list Particle.t) :
  (length ps < N)%nat ->
  predict_particles N cos sin randn ps (control_array v omega) = inl IndexError
  /\ normalize_weight N ps = inl IndexError
  /\ resampling N rand ps = inl IndexError
  /\ fast_slam1 N cos sin randn rand ps (control_array v omega) z
     = inl IndexError.
Proof.
  intros Hlen.
  pose proof (predict_particles_short N cos sin randn v omega ps Hlen) as Hp.
  pose proof (normalize_weight_short N ps Hlen) as Hn.
  split; [exact Hp |]. split; [exact Hn |]. split.
  - unfold resampling. rewrite Hn. reflexivity.
  - unfold fast_slam1. rewrite Hp. reflexivity.
Qed.

Lemma short_particle_list_raises_witness :
  normalize_weight 100 (take 99 initial) = inl IndexError
  /\ fast_slam1 100 cos_at_0 sin_at_0 no_noise rand_half (take 99 initial)
       (control_array 1 (1 # 10)) one_observation = inl IndexError.
Proof.
  destruct (short_particle_list_raises 100 cos_at_0 sin_at_0 no_noise rand_half
              1 (1 # 10) one_observation (take 99 initial))
    as (_ & Hn & _ & Hf).
  - vm_compute. lia.
  - split; assumption.
Defined.

(** ** Particles that differ in weight only *)

Lemma Forall2_map_self {A : Type} (P : A -> A -> Prop) (f : A -> A) (l : list A) :
  (forall a, a ∈ l -> P (f a) a) -> Forall2 P (map f l) l.
Proof.
  induction l as [| a l IH]; intros H; simpl; constructor.
  - apply H. left.
  - apply IH. intros b Hb. apply H. right. exact Hb.
Qed.

Lemma same_state_set_w (p : Particle.t) (v : float) :
  same_state (Particle.set_w p v) p.
Proof. unfold same_state. simpl. auto. Qed.

(** ** What resampling returns *)

(** X9.  When the effective particle number of the normalised weights is
    not below the threshold, resampling changes the weights only: each
    particle keeps its pose and its landmark arrays. *)
Theorem resampling_without_redraw (N : nat) (rand : nat -> Q)
    (ps ps1 : list Particle.t) :
  length ps = N ->
  normalize_weight N ps = inr ps1 ->
  flt (Neff (map Particle.w ps1)) (Fin (NTH N)) = false ->
  resampling N rand ps = inr ps1 /\ Forall2 same_state ps1 ps.
Proof.
  intros Hlen Hn Hflt. split.
  - apply (resampling_skip N rand ps ps1 Hlen Hn Hflt).
  - destruct (normalize_weight_total N ps Hlen) as (f & Hf).
    rewrite Hf in Hn. injection Hn as <-.
    apply (Forall2_map_self same_state).
    intros p _. apply same_state_set_w.
Qed.

Lemma resampling_without_redraw_witness :
  exists ps1,
    resampling 3 rand_half (fst (main_particles 3)) = inr ps1
    /\ Forall2 same_state ps1 (fst (main_particles 3)).
Proof.
  eexists.
  apply (resampling_without_redraw 3 rand_half (fst (main_particles 3))).
  - reflexivity.
  - vm_compute. reflexivity.
  - vm_compute. reflexivity.
Defined.

Lemma copy_loop_spec (N : nat) (inds : list nat) (ps : list Particle.t) :
  length ps = N -> length inds = N ->
  Forall (fun j => (j < N)%nat) inds ->
  exists ps',
    for_range (length inds) (copy_step N inds) ps = inr ps'
    /\ length ps' = N
    /\ Forall (fun p => Particle.w p = Fin (inv_N N)
                        /\ exists q, q ∈ ps /\ same_state p q) ps'.
Proof.
  intros Hlen Hil Hall.
  destruct (for_range_inv
    (fun i (t : list Particle.t) =>
       length t = N
       /\ (forall k p, t !! k = Some p -> exists q, q ∈ ps /\ same_state p q)
       /\ (forall k p, (k < i)%nat -> t !! k = Some p ->
             Particle.w p = Fin (inv_N N)))
    (copy_step N inds) (length inds) ps) as (ps' & Hrun & Hl & Hsrc & Hw).
  - split; [exact Hlen |]. split.
    + intros k p Hk. exists p. split.
      * apply list_elem_of_lookup. eauto.
      * unfold same_state. auto.
    + intros k p Hk. lia.
  - intros i t Hi (Ht & Hsrc & Hw).
    destruct (lookup_lt_is_Some_2 inds i Hi) as [j Hj].
    assert (Hjn : (j < N)%nat).
    { rewrite Forall_forall in Hall. apply Hall.
      apply list_elem_of_lookup. eauto. }
    destruct (lookup_lt_is_Some_2 t j ltac:(lia)) as [src Hs].
    rewrite (copy_step_ok N inds i j t src Hj ltac:(lia) Hs).
    eexists. split; [reflexivity |].
    split; [rewrite length_insert; exact Ht |]. split.
    + intros k p Hk. destruct (decide (k = i)) as [-> | Hne].
      * rewrite list_lookup_insert_eq in Hk by lia. injection Hk as <-.
        destruct (Hsrc j src Hs) as (q & Hq & Hsame).
        exists q. split; [exact Hq |].
        unfold same_state in *. simpl. exact Hsame.
      * rewrite list_lookup_insert_ne in Hk by congruence.
        apply (Hsrc k p Hk).
    + intros k p Hk Hkp. destruct (decide (k = i)) as [-> | Hne].
      * rewrite list_lookup_insert_eq in Hkp by lia. injection Hkp as <-.
        reflexivity.
      * rewrite list_lookup_insert_ne in Hkp by congruence.
        apply (Hw k p ltac:(lia) Hkp).
  - exists ps'. split; [exact Hrun |]. split; [exact Hl |].
    apply Forall_lookup. intros k p Hk. split.
    + apply (Hw k p); [| exact Hk]. apply lookup_lt_Some in Hk. lia.
    + apply (Hsrc k p Hk).
Qed.

Lemma resampling_redraw_spec (N : nat) (rand : nat -> Q)
    (ps ps1 : list Particle.t) :
  length ps = N ->
  normalize_weight N ps = inr ps1 ->
  flt (Neff (map Particle.w ps1)) (Fin (NTH N)) = true ->
  exists ps',
    resampling N rand ps = inr ps'
    /\ length ps' = N
    /\ Forall (fun p => Particle.w p = Fin (inv_N N)
                        /\ exists q, q ∈ ps /\ same_state p q) ps'.
Proof.
  intros Hlen Hn Hflt.
  pose proof (normalize_weight_length N ps ps1 Hlen Hn) as Hl1.
  unfold resampling. rewrite Hn. cbn [bind].
  rewrite (weights_spec N ps1 Hl1). cbn [bind]. rewrite Hflt.
  destruct (select_inds_ok N (np_cumsum (map Particle.w ps1))
              (resampleid N rand (map Particle.w ps1)))
    as (inds & Hs & Hil & Hall).
  { rewrite np_cumsum_length, length_map. exact Hl1. }
  { rewrite resampleid_length, length_map. exact Hl1. }
  rewrite Hs. cbn [bind].
  destruct (copy_loop_spec N inds ps1 Hl1 Hil Hall) as (ps' & Hrun & Hl' & Hspec).
  exists ps'. split; [exact Hrun |]. split; [exact Hl' |].
  destruct (normalize_weight_total N ps Hlen) as (f & Hf).
  rewrite Hf in Hn. injection Hn as <-.
  eapply Forall_impl; [exact Hspec |].
  intros p (Hw & q1 & Hq1 & Hsame). split; [exact Hw |].
  apply list_elem_of_In, in_map_iff in Hq1. destruct Hq1 as (q & <- & Hq).
  exists q. split; [apply list_elem_of_In; exact Hq |].
  unfold same_state in *. simpl in Hsame. exact Hsame.
Qed.

(** X10.  When the effective particle number is below the threshold,
    whatever the weights and the random draws are, resampling returns N
    particles, each with the weight 1/N exactly and with the pose and the
    landmark arrays of one of the particles it was given. *)
Theorem resampling_redraw (N : nat) (rand : nat -> Q)
    (ps ps1 : list Particle.t) :
  length ps = N ->
  normalize_weight N ps = inr ps1 ->
  flt (Neff (map Particle.w ps1)) (Fin (NTH N)) = true ->
  exists ps',
    resampling N rand ps = inr ps'
    /\ length ps' = N
    /\ Forall (fun p => Particle.w p = Fin (inv_N N)
                        /\ exists q, q ∈ ps /\ same_state p q) ps'.
Proof. apply resampling_redraw_spec. Qed.

Lemma resampling_redraw_witness :
  exists ps',
    resampling 100 rand_half skewed = inr ps' /\ length ps' = 100%nat.
Proof.
  destruct (resampling_redraw 100 rand_half skewed
              (map (fun p => Particle.set_w p
                      (np_div (Particle.w p) (fsum (map Particle.w skewed))))
                   skewed))
    as (ps' & Hr & Hl & _).
  - vm_compute. reflexivity.
  - vm_compute. reflexivity.
  - vm_compute. reflexivity.
  - exists ps'. split; assumption.
Defined.

(** X11.  A resampling that follows a redraw immediately does not redraw:
    it returns the redrawn set with its weights normalised, every
    particle keeping its pose and its landmark arrays. *)
Theorem redraw_then_no_redraw (N : nat) (rand rand' : nat -> Q)
    (ps ps1 : list Particle.t) :
  (1 <= N)%nat -> length ps = N ->
  normalize_weight N ps = inr ps1 ->
  flt (Neff (map Particle.w ps1)) (Fin (NTH N)) = true ->
  exists ps' ps'',
    resampling N rand ps = inr ps'
    /\ normalize_weight N ps' = inr ps''
    /\ flt (Neff (map Particle.w ps'')) (Fin (NTH N)) = false
    /\ resampling N rand' ps' = inr ps''
    /\ Forall2 same_state ps'' ps'.
Proof.
  intros HN Hlen Hn Hflt.
  destruct (resampling_redraw_spec N rand ps ps1 Hlen Hn Hflt)
    as (ps' & Hr & Hl' & Hspec).
  assert (Hu : uniform N ps').
  { eapply Forall_impl; [exact Hspec |].
    intros p [Hw _]. rewrite Hw. simpl. reflexivity. }
  destruct (resampling_uniform N rand' ps' HN Hl' Hu)
    as (ps'' & Hn2 & Hflt2 & _ & Hr2 & _).
  exists ps', ps''. split; [exact Hr |]. split; [exact Hn2 |].
  split; [exact Hflt2 |]. split; [exact Hr2 |].
  destruct (normalize_weight_total N ps' Hl') as (f & Hf).
  rewrite Hf in Hn2. injection Hn2 as <-.
  apply (Forall2_map_self same_state). intros p _. apply same_state_set_w.
Qed.

Lemma redraw_then_no_redraw_witness :
  exists ps' ps'',
    resampling 100 rand_half dominant = inr ps'
    /\ resampling 100 rand_two ps' = inr ps''
    /\ Forall2 same_state ps'' ps'.
Proof.
  destruct (redraw_then_no_redraw 100 rand_half rand_two dominant
              (map (fun p => Particle.set_w p
                      (np_div (Particle.w p) (fsum (map Particle.w dominant))))
                   dominant))
    as (ps' & ps'' & Hr & _ & _ & Hr2 & Hs).
  - lia.
  - vm_compute. reflexivity.
  - vm_compute. reflexivity.
  - vm_compute. reflexivity.
  - exists ps', ps''. auto.
Defined.

(** ** The selected indices *)

Lemma select_inds_sorted (N : nat) (wcum ids : list float) :
  length wcum = N -> length ids = N ->
  exists inds,
    select_inds N wcum ids = inr inds
    /\ length inds = N
    /\ forall i i' j j', (i <= i')%nat ->
         inds !! i = Some j -> inds !! i' = Some j' -> (j <= j' < N)%nat.
Proof.
  intros Hw Hids. unfold select_inds.
  destruct (for_range_inv
    (fun ip (st : nat * list nat) =>
       length (snd st) = ip /\ (fst st <= N - 1)%nat
       /\ (forall i j, snd st !! i = Some j -> (j <= fst st)%nat)
       /\ (forall i i' j j', (i <= i')%nat ->
             snd st !! i = Some j -> snd st !! i' = Some j' ->
             (j <= j' < N)%nat))
    (fun ip (st : nat * list nat) =>
       let* ind := scan wcum ids ip (fst st) in
       ret (ind, snd st ++ [ind]))
    N (0%nat, [])) as (st & Hrun & Hl & _ & _ & Hsorted).
  - simpl. split; [reflexivity |]. split; [lia |]. split.
    + intros i j Hi. rewrite lookup_nil in Hi. discriminate.
    + intros i i' j j' _ Hi. rewrite lookup_nil in Hi. discriminate.
  - intros ip [ind inds] Hip (Hl & Hind & Hmax & Hsorted).
    cbn [fst snd] in *.
    destruct (lookup_lt_is_Some_2 ids ip ltac:(lia)) as [t Ht].
    destruct (scan_spec wcum ids ip t ind Ht) as (j0 & Hj & Hle & Hbound & _).
    rewrite Hj. cbn [bind]. eexists. split; [reflexivity |].
    cbn [fst snd].
    assert (Hlast : forall i j, (inds ++ [j0]) !! i = Some j ->
              (i < length inds)%nat /\ inds !! i = Some j
              \/ i = length inds /\ j = j0).
    { intros i j Hi. destruct (decide (i < length inds)%nat) as [Hlt | Hge].
      - left. rewrite lookup_app_l in Hi by exact Hlt. auto.
      - right. rewrite lookup_app_r in Hi by lia.
        destruct (i - length inds)%nat as [| d] eqn:Hd; [| discriminate].
        simpl in Hi. injection Hi as <-. split; [lia | reflexivity]. }
    split; [rewrite length_app; simpl; lia |]. split; [lia |]. split.
    + intros i j Hi. destruct (Hlast i j Hi) as [[_ Hold] | [_ ->]].
      * specialize (Hmax i j Hold). lia.
      * lia.
    + intros i i' j j' Hii Hi Hi'.
      destruct (Hlast i j Hi) as [[Hlt Hold] | [Hieq ->]];
        destruct (Hlast i' j' Hi') as [[Hlt' Hold'] | [Hieq' ->]].
      * apply (Hsorted i i' j j' Hii Hold Hold').
      * specialize (Hmax i j Hold). lia.
      * lia.
      * lia.
  - rewrite Hrun. exists (snd st). simpl. auto.
Qed.

(** X12.  Whatever the weights are, finite or not, the indices selected
    for the output slots never decrease from one slot to the next, and
    each is an index of the particle set. *)
Theorem selected_indices_nondecreasing (N : nat) (rand : nat -> Q)
    (pw : list float) :
  length pw = N ->
  exists inds,
    select_inds N (np_cumsum pw) (resampleid N rand pw) = inr inds
    /\ length inds = N
    /\ forall i i' j j', (i <= i')%nat ->
         inds !! i = Some j -> inds !! i' = Some j' -> (j <= j' < N)%nat.
Proof.
  intros Hlen. apply select_inds_sorted.
  - rewrite np_cumsum_length. exact Hlen.
  - rewrite resampleid_length. exact Hlen.
Qed.

Lemma selected_indices_nondecreasing_witness :
  exists inds,
    select_inds 3 (np_cumsum [Fin (1 # 10); NaN; PInf])
      (resampleid 3 rand_half [Fin (1 # 10); NaN; PInf]) = inr inds
    /\ length inds = 3%nat.
Proof.
  destruct (selected_indices_nondecreasing 3 rand_half [Fin (1 # 10); NaN; PInf])
    as (inds & Hs & Hl & _).
  - reflexivity.
  - exists inds. split; assumption.
Defined.

(** X16.  The scan compares with [>]: when the draw of slot 0 is exactly
    0 and the first normalised weight is not negative, slot 0 selects
    particle 0, even if that weight is zero. *)
Theorem zero_draw_selects_first (N : nat) (rand : nat -> Q) (qs : list Q)
    (q0 : Q) :
  (1 <= N)%nat -> length qs = N ->
  (forall k, 0 <= rand k < 1) -> rand 0%nat == 0 ->
  qs !! 0%nat = Some q0 -> 0 <= q0 ->
  exists inds,
    select_inds N (np_cumsum (map Fin qs)) (resampleid N rand (map Fin qs))
    = inr inds
    /\ inds !! 0%nat = Some 0%nat.
Proof.
  intros HN Hlen Hr Hr0 Hq0 Hpos.
  destruct (select_inds_finite N (Qcumsum qs) (Qtargets N rand qs))
    as (inds & Hsel & Hil & Hspec).
  { rewrite Qcumsum_length. exact Hlen. }
  { rewrite Qtargets_length. exact Hlen. }
  { apply Qtargets_mono; assumption. }
  rewrite <- np_cumsum_Fin, <- (resampleid_Fin N rand qs HN) in Hsel.
  exists inds. split; [exact Hsel |].
  destruct (lookup_lt_is_Some_2 inds 0) as [j Hj]; [lia |].
  destruct (lookup_lt_is_Some_2 (Qtargets N rand qs) 0) as [t Ht].
  { rewrite Qtargets_length. lia. }
  destruct (Hspec 0%nat j t Hj Ht) as (_ & Hbefore & _).
  destruct j as [| j]; [exact Hj |]. exfalso.
  assert (Hc : Qcumsum qs !! 0%nat = Some q0).
  { destruct qs as [| q qs']; [discriminate |].
    simpl in Hq0. injection Hq0 as ->. reflexivity. }
  specialize (Hbefore 0%nat q0 ltac:(lia) Hc).
  rewrite (Qtargets_lookup N rand qs 0 t HN Ht) in Hbefore.
  unfold target in Hbefore. rewrite Hr0 in Hbefore.
  pose proof (Qnat_pos N HN) as HNpos.
  assert (E : Qnat 0 / Qnat N + 0 / Qnat N == 0).
  { change (Qnat 0) with 0. field. lra. }
  rewrite E in Hbefore. lra.
Qed.

Lemma zero_draw_selects_first_witness :
  exists inds,
    select_inds 3 (np_cumsum (map Fin [0; 1; 0]))
      (resampleid 3 rand_two (map Fin [0; 1; 0])) = inr inds
    /\ inds !! 0%nat = Some 0%nat.
Proof.
  apply (zero_draw_selects_first 3 rand_two [0; 1; 0] 0).
  - lia.
  - reflexivity.
  - intros [| [| k]]; simpl; split; try discriminate; reflexivity.
  - reflexivity.
  - reflexivity.
  - discriminate.
Defined.

(** ** Landmark arrays at construction and in the reachable sets *)

Lemma new_particles_locs (N N_LM n : nat) (h : heap) (i : nat) (p : Particle.t) :
  fst (new_particles N N_LM n h) !! i = Some p ->
  Particle.lm p = (length h + 2 * i)%nat
  /\ Particle.lmP p = (length h + 2 * i + 1)%nat.
Proof.
  revert h i. induction n as [| n IH]; intros h i Hp.
  - simpl in Hp. rewrite lookup_nil in Hp. discriminate.
  - simpl in Hp.
    specialize (IH ((h ++ [np_zeros N_LM LM_SIZE])
                      ++ [np_zeros (N_LM * LM_SIZE) LM_SIZE])).
    destruct (new_particles N N_LM n _) as [ps h2]. simpl in *.
    destruct i as [| i].
    + simpl in Hp. injection Hp as <-. simpl.
      rewrite length_app. simpl. lia.
    + simpl in Hp. destruct (IH i Hp) as [H1 H2].
      rewrite !length_app in H1, H2. simpl in H1, H2. lia.
Qed.

Lemma index_insert_ne {A : Type} (l : list A) (i j : nat) (a : A) :
  i <> j -> index (<[i := a]> l) j = index l j.
Proof.
  intros H. unfold index. rewrite list_lookup_insert_ne by exact H.
  reflexivity.
Qed.

Lemma set_lmP_heap (h h' : heap) (p : Particle.t) (r c : nat) (v : Q) :
  set_lmP h p r c v = inr h' -> exists a, h' = <[Particle.lmP p := a]> h.
Proof.
  unfold set_lmP. destruct (index h (Particle.lmP p)) as [e | a]; simpl;
    [discriminate |].
  destruct (mset a r c v) as [e | a']; simpl; [discriminate |].
  intros H. injection H as <-. eauto.
Qed.

Lemma set_lm_heap (h h' : heap) (p : Particle.t) (r c : nat) (v : Q) :
  set_lm h p r c v = inr h' -> exists a, h' = <[Particle.lm p := a]> h.
Proof.
  unfold set_lm. destruct (index h (Particle.lm p)) as [e | a]; simpl;
    [discriminate |].
  destruct (mset a r c v) as [e | a']; simpl; [discriminate |].
  intros H. injection H as <-. eauto.
Qed.

(** X14.  The constructed particles own their landmark arrays: a write
    to the mean or to the covariance array of one particle changes no
    entry that another particle reads, in either array. *)
Theorem constructed_particles_independent (N i j : nat) (p q : Particle.t)
    (r c : nat) (v : Q) (h' : heap) :
  i <> j ->
  fst (main_particles N) !! i = Some p ->
  fst (main_particles N) !! j = Some q ->
  set_lmP (snd (main_particles N)) p r c v = inr h'
  \/ set_lm (snd (main_particles N)) p r c v = inr h' ->
  forall r' c',
    get_lmP h' q r' c' = get_lmP (snd (main_particles N)) q r' c'
    /\ get_lm h' q r' c' = get_lm (snd (main_particles N)) q r' c'.
Proof.
  intros Hij Hp Hq Hset r' c'.
  destruct (new_particles_locs N (length RFID) N [] i p Hp) as [Hpl HpP].
  destruct (new_particles_locs N (length RFID) N [] j q Hq) as [Hql HqP].
  simpl in Hpl, HpP, Hql, HqP.
  unfold get_lmP, get_lm.
  destruct Hset as [Hset | Hset].
  - destruct (set_lmP_heap _ _ _ _ _ _ Hset) as (a & ->).
    unfold heap, loc in *.
    rewrite !index_insert_ne by lia. split; reflexivity.
  - destruct (set_lm_heap _ _ _ _ _ _ Hset) as (a & ->).
    unfold heap, loc in *.
    rewrite !index_insert_ne by lia. split; reflexivity.
Qed.

Lemma constructed_particles_independent_witness :
  exists p q h',
    initial !! 1%nat = Some p /\ initial !! 2%nat = Some q
    /\ set_lmP initial_heap p 0 0 5 = inr h'
    /\ get_lmP h' q 0 0 = inr 0.
Proof.
  eexists. eexists. eexists.
  split; [reflexivity |]. split; [reflexivity |].
  split; [vm_compute; reflexivity |].
  refine (eq_trans
            (proj1 (constructed_particles_independent 100 1 2 _ _ 0 0 5 _
                      _ eq_refl eq_refl (or_introl eq_refl) 0%nat 0%nat)) _).
  - lia.
  - reflexivity.
Defined.

(** X17.  In every particle set the driver reaches from the constructed
    one, particle [i] still refers to the two arrays it was constructed
    with, the arrays number [2 i] and [2 i + 1] of the heap: no step
    makes two particles share a landmark array. *)
Theorem reachable_particles_keep_their_arrays (N : nat) (cos sin : Q -> Q)
    (ps : list Particle.t) :
  (1 <= N)%nat -> reachable N cos sin ps ->
  forall i p, ps !! i = Some p ->
    Particle.lm p = (2 * i)%nat /\ Particle.lmP p = (2 * i + 1)%nat.
Proof.
  intros HN Hr.
  assert (Hboth : (uniform N ps /\ length ps = N)
                  /\ forall i p, ps !! i = Some p ->
                       Particle.lm p = (2 * i)%nat
                       /\ Particle.lmP p = (2 * i + 1)%nat).
  { induction Hr as [| s ps ps' Hr [[Hu Hlen] IH] Hstep].
    - split.
      + split; [apply new_particles_uniform | apply new_particles_length].
      + intros i p Hp.
        destruct (new_particles_locs N (length RFID) N [] i p Hp) as [H1 H2].
        simpl in H1, H2. split; lia.
    - destruct (fast_slam1_uniform N cos sin (step_randn s) (step_rand s) ps
                  (step_v s) (step_omega s) (step_z s) HN Hlen Hu)
        as (ps1 & ps2 & Hp1 & Hn & _ & _ & Hf & Hu' & Hl').
      rewrite Hf in Hstep. injection Hstep as <-.
      split; [split; assumption |].
      intros i p2 Hp2.
      destruct (predict_particles_spec N cos sin (step_randn s) (step_v s)
                  (step_omega s) ps Hlen) as (ps1' & Hp1' & Hl1 & Hspec).
      rewrite Hp1 in Hp1'. injection Hp1' as <-.
      destruct (normalize_weight_total N ps1 Hl1) as (f & Hf1).
      rewrite Hf1 in Hn. injection Hn as <-.
      rewrite list_lookup_fmap in Hp2.
      destruct (ps1 !! i) as [p1 |] eqn:Hi1; [| discriminate].
      simpl in Hp2. injection Hp2 as <-. simpl.
      destruct (lookup_lt_is_Some_2 ps i) as [p Hp].
      { apply lookup_lt_Some in Hi1. lia. }
      destruct (Hspec i p Hp) as (p1' & Hi1' & Hpred).
      rewrite Hi1 in Hi1'. injection Hi1' as <-.
      destruct Hpred as (_ & Hlm & HlmP & _).
      rewrite Hlm, HlmP. apply (IH i p Hp). }
  exact (proj2 Hboth).
Qed.

Lemma reachable_particles_keep_their_arrays_witness :
  exists ps' p,
    fast_slam1 100 cos_at_0 sin_at_0 no_noise rand_half initial
      (control_array 1 (1 # 10)) one_observation = inr ps'
    /\ ps' !! 4%nat = Some p
    /\ Particle.lm p = 8%nat /\ Particle.lmP p = 9%nat.
Proof.
  destruct (fast_slam1_ok 100 cos_at_0 sin_at_0 no_noise rand_half initial
              1 (1 # 10) one_observation) as (ps' & Hf & Hl).
  - vm_compute. reflexivity.
  - destruct (lookup_lt_is_Some_2 ps' 4) as [p Hp]; [lia |].
    exists ps', p. split; [exact Hf |]. split; [exact Hp |].
    apply (reachable_particles_keep_their_arrays 100 cos_at_0 sin_at_0 ps'
             ltac:(lia)
             (reachable_step 100 cos_at_0 sin_at_0 step0 initial ps'
                (reachable_init 100 cos_at_0 sin_at_0) Hf)
             4%nat p Hp).
Defined.

(** ** The simulated observations *)

Lemma observe_step_spec (hypot atan2 : Q -> Q -> Q) (randn_z : nat -> Q * Q)
    (tx ty tyaw lx ly : Q) (RFID : matrix) (i : nat) (rs bs ids : list Q) :
  RFID !! i = Some [lx; ly] ->
  exists z',
    observe_step hypot atan2 randn_z (pose_array tx ty tyaw) RFID i [rs; bs; ids]
    = inr z'
    /\ (in_range hypot tx ty RFID i = true
        /\ (exists dn b, z' = [rs ++ [dn]; bs ++ [b]; ids ++ [Qnat i]])
        \/ in_range hypot tx ty RFID i = false /\ z' = [rs; bs; ids]).
Proof.
  intros Hi. unfold observe_step, mget, in_range.
  rewrite (index_lookup _ _ _ Hi), Hi. cbn.
  destruct (Qle_bool (hypot (lx - tx) (ly - ty)) MAX_RANGE).
  - eexists. split; [reflexivity |]. left. split; [reflexivity |].
    eexists. eexists. reflexivity.
  - eexists. split; [reflexivity |]. right. split; reflexivity.
Qed.

Lemma observe_loop_spec (hypot atan2 : Q -> Q -> Q) (randn_z : nat -> Q * Q)
    (tx ty tyaw : Q) (RFID : matrix) :
  Forall (fun r => length r = 2%nat) RFID ->
  exists rs bs,
    for_range (length RFID)
      (observe_step hypot atan2 randn_z (pose_array tx ty tyaw) RFID)
      (np_zeros 3 0)
    = inr [rs; bs;
           map Qnat (List.filter (in_range hypot tx ty RFID)
                       (seq 0 (length RFID)))]
    /\ length rs = length (List.filter (in_range hypot tx ty RFID)
                             (seq 0 (length RFID)))
    /\ length bs = length rs.
Proof.
  intros Hshape.
  destruct (for_range_inv
    (fun i (z : matrix) =>
       exists rs bs,
         z = [rs; bs;
              map Qnat (List.filter (in_range hypot tx ty RFID) (seq 0 i))]
         /\ length rs = length (List.filter (in_range hypot tx ty RFID) (seq 0 i))
         /\ length bs = length rs)
    (observe_step hypot atan2 randn_z (pose_array tx ty tyaw) RFID)
    (length RFID) (np_zeros 3 0)) as (z & Hrun & rs & bs & -> & Hl & Hb).
  - exists [], []. split; [reflexivity |]. split; reflexivity.
  - intros i z Hi (rs & bs & -> & Hl & Hb).
    destruct (lookup_lt_is_Some_2 RFID i Hi) as [row Hrow].
    assert (Hrl : length row = 2%nat).
    { rewrite Forall_forall in Hshape. apply Hshape.
      apply list_elem_of_lookup. eauto. }
    destruct row as [| lx [| ly [| e row]]]; try discriminate.
    destruct (observe_step_spec hypot atan2 randn_z tx ty tyaw lx ly RFID i
                rs bs
                (map Qnat (List.filter (in_range hypot tx ty RFID) (seq 0 i)))
                Hrow) as (z' & Hs & Hcase).
    exists z'. split; [exact Hs |].
    rewrite seq_S, List.filter_app. simpl.
    destruct Hcase as [(Hin & dn & b & ->) | (Hout & ->)].
    + rewrite Hin. exists (rs ++ [dn]), (bs ++ [b]).
      split; [rewrite map_app; reflexivity |].
      split; rewrite !length_app; simpl; lia.
    + rewrite Hout. rewrite app_nil_r. exists rs, bs. auto.
  - exists rs, bs. auto.
Qed.

(** X15.  For a landmark table of rows [x, y], [observation] returns,
    without raising: the true pose moved by the control, and a batch [z]
    of three rows (ranges, bearings, ids) that holds exactly the landmarks
    within [MAX_RANGE] of the moved true pose, in the order of the table;
    the control it reports is the given one plus the drawn noise and the
    yaw rate offset, and the dead reckoning pose is moved by that noisy
    control. *)
Theorem observation_reports_landmarks_in_range (cos sin : Q -> Q)
    (hypot atan2 : Q -> Q -> Q) (randn_z : nat -> Q * Q) (randn_u : Q * Q)
    (tx ty tyaw dx dy dyaw v omega : Q) (RFID : matrix) :
  Forall (fun r => length r = 2%nat) RFID ->
  exists tx' ty' tyaw' rs bs xd',
    motion_model cos sin (pose_array tx ty tyaw) (control_array v omega)
    = inr (pose_array tx' ty' tyaw')
    /\ motion_model cos sin (pose_array dx dy dyaw)
         (control_array (v + fst randn_u * (1 # 2))
            (omega + snd randn_u * deg2rad 10 + (1 # 100)))
       = inr xd'
    /\ observation cos sin hypot atan2 randn_z randn_u (pose_array tx ty tyaw)
         (pose_array dx dy dyaw) (control_array v omega) RFID
       = inr (pose_array tx' ty' tyaw',
              [rs; bs;
               map Qnat (List.filter (in_range hypot tx' ty' RFID)
                           (seq 0 (length RFID)))],
              xd',
              control_array (v + fst randn_u * (1 # 2))
                (omega + snd randn_u * deg2rad 10 + (1 # 100)))
    /\ length rs = length (List.filter (in_range hypot tx' ty' RFID)
                             (seq 0 (length RFID)))
    /\ length bs = length rs.
Proof.
  intros Hshape.
  destruct (motion_model_pose cos sin tx ty tyaw v omega)
    as (tx' & ty' & tyaw' & Hm & _).
  destruct (observe_loop_spec hypot atan2 randn_z tx' ty' tyaw' RFID Hshape)
    as (rs & bs & Hloop & Hl & Hb).
  destruct (motion_model_pose cos sin dx dy dyaw
              (v + fst randn_u * (1 # 2))
              (omega + snd randn_u * deg2rad 10 + (1 # 100)))
    as (dx' & dy' & dyaw' & Hd & _).
  exists tx', ty', tyaw', rs, bs, (pose_array dx' dy' dyaw').
  split; [exact Hm |]. split; [exact Hd |].
  split; [| split; [exact Hl | exact Hb]].
  unfold observation. rewrite Hm. cbn [bind]. rewrite Hloop. cbn [bind].
  change (mget (control_array v omega) 0 0) with (inr v : res Q).
  change (mget (control_array v omega) 1 0) with (inr omega : res Q).
  cbn [bind].
  change Rsim_sqrt_00 with (1 # 2). change Rsim_sqrt_11 with (deg2rad 10).
  change OFFSET_YAWRATE_NOISE with (1 # 100).
  rewrite Hd. reflexivity.
Qed.

Lemma observation_reports_landmarks_in_range_witness :
  exists xTrue rs bs xd ud,
    observation cos_at_0 sin_at_0 hypot_l1 (fun _ _ => 0) no_noise (0, 0)
      (pose_array 0 0 0) (pose_array 0 0 0) (control_array 1 0) RFID
    = inr (xTrue, [rs; bs; [Qnat 0; Qnat 4; Qnat 6]], xd, ud)
    /\ length rs = 3%nat /\ length bs = 3%nat.
Proof.
  destruct (observation_reports_landmarks_in_range cos_at_0 sin_at_0
              hypot_l1 (fun _ _ => 0) no_noise (0, 0)
              0 0 0 0 0 0 1 0 RFID)
    as (tx' & ty' & tyaw' & rs & bs & xd' & Hm & _ & Hobs & Hl & Hb).
  - repeat constructor.
  - vm_compute in Hm. injection Hm as Hx Hy Hyaw. subst tx' ty' tyaw'.
    assert (Hl3 : length rs = 3%nat) by exact Hl.
    do 5 eexists. split; [exact Hobs |]. split; [exact Hl3 |].
    rewrite Hb. exact Hl3.
Defined.

(** ** Rounding *)

(** X18.  In binary64 a target can exceed every cumulative sum.  With all the
    weight on particle 0 the cumulative sums are all 1.0; the base of the
    last slot is 0.99000000000000066, and with the draw 1 - 2^-53 its
    target is above 1: the scan runs to the last index, 99, where in exact
    arithmetic it stops at index 0. *)
Lemma resampling_target_above_every_sum :
  exists ps1 inds t,
    Rounded.normalize_weight round64 N_PARTICLE dominant = inr ps1
    /\ flt (Rounded.Neff round64 (map Particle.w ps1))
           (Rounded.NTH round64 N_PARTICLE) = true
    /\ Forall (fun c => c = Fin 1) (Rounded.np_cumsum round64 (map Particle.w ps1))
    /\ select_inds N_PARTICLE (Rounded.np_cumsum round64 (map Particle.w ps1))
         (Rounded.resampleid round64 N_PARTICLE rand_last (map Particle.w ps1))
       = inr inds
    /\ Rounded.resampleid round64 N_PARTICLE rand_last (map Particle.w ps1)
         !! 99%nat = Some (Fin t)
    /\ 1 < t
    /\ inds !! 98%nat = Some 0%nat
    /\ inds !! 99%nat = Some 99%nat.
Proof.
  eexists. eexists. eexists.
  split; [vm_compute; reflexivity |].
  split; [vm_compute; reflexivity |].
  split.
  { vm_compute. repeat constructor. }
  split; [vm_compute; reflexivity |].
  split; [vm_compute; reflexivity |].
  split; [reflexivity |].
  split; reflexivity.
Qed.

(** X21.  In binary64 the targets can decrease from one slot to the next,
    and the index of a slot is then not the smallest one whose cumulative
    sum reaches the target.  On [two_weights] with the draws [rand_drop]
    the target of slot 23 is 0.24000000000000007 and that of slot 24 is
    0.24000000000000005, which the first cumulative sum reaches; slot 23
    has moved the scan to index 1, and slot 24 selects index 1, not 0. *)
Lemma resampling_index_not_smallest :
  exists ps1 inds t23 t24 c0,
    Rounded.normalize_weight round64 N_PARTICLE two_weights = inr ps1
    /\ flt (Rounded.Neff round64 (map Particle.w ps1))
           (Rounded.NTH round64 N_PARTICLE) = true
    /\ select_inds N_PARTICLE (Rounded.np_cumsum round64 (map Particle.w ps1))
         (Rounded.resampleid round64 N_PARTICLE rand_drop (map Particle.w ps1))
       = inr inds
    /\ Rounded.resampleid round64 N_PARTICLE rand_drop (map Particle.w ps1)
         !! 23%nat = Some (Fin t23)
    /\ Rounded.resampleid round64 N_PARTICLE rand_drop (map Particle.w ps1)
         !! 24%nat = Some (Fin t24)
    /\ t24 < t23
    /\ Rounded.np_cumsum round64 (map Particle.w ps1) !! 0%nat = Some (Fin c0)
    /\ t24 <= c0 /\ c0 < t23
    /\ inds !! 22%nat = Some 0%nat
    /\ inds !! 23%nat = Some 1%nat
    /\ inds !! 24%nat = Some 1%nat.
Proof.
  eexists. eexists. eexists. eexists. eexists.
  split; [vm_compute; reflexivity |].
  split; [vm_compute; reflexivity |].
  split; [vm_compute; reflexivity |].
  split; [vm_compute; reflexivity |].
  split; [vm_compute; reflexivity |].
  split; [reflexivity |].
  split; [vm_compute; reflexivity |].
  split; [discriminate |]. split; [reflexivity |].
  split; [reflexivity |]. split; reflexivity.
Qed.

(** X19.  Whatever rounding follows the three operations of [pi_2_pi],
    as long as it is monotone and leaves 0, pi, -pi and 2 pi as they are,
    the value lies in the closed interval [-pi, pi]. *)
Theorem pi_2_pi_range_any_rounding (rnd : Q -> Q) (angle : Q) :
  rounding rnd ->
  0 <= Rounded.py_mod rnd (rnd (angle + math_pi)) (2 * math_pi)
  /\ Rounded.py_mod rnd (rnd (angle + math_pi)) (2 * math_pi) <= 2 * math_pi
  /\ - math_pi <= Rounded.pi_2_pi rnd angle
  /\ Rounded.pi_2_pi rnd angle <= math_pi.
Proof.
  intros Hr. pose proof math_pi_pos as Hpi.
  destruct (py_mod_range rnd (rnd (angle + math_pi)) (2 * math_pi) Hr
              ltac:(lra) (rnd_2pi rnd Hr)) as [Hlo Hhi].
  destruct (pi_2_pi_rounded_range rnd angle Hr) as [H1 H2].
  auto.
Qed.

Lemma pi_2_pi_range_any_rounding_witness :
  0 <= Rounded.py_mod round64 (round64 (7 + math_pi)) (2 * math_pi)
  /\ Rounded.py_mod round64 (round64 (7 + math_pi)) (2 * math_pi) <= 2 * math_pi
  /\ - math_pi <= Rounded.pi_2_pi round64 7
  /\ Rounded.pi_2_pi round64 7 <= math_pi.
Proof.
  apply (pi_2_pi_range_any_rounding round64 7). exact round64_rounding.
Defined.

(** X20.  Whatever the rounding, normalising N equal weights leaves N
    equal weights: each of them is the weight divided by the sum of N
    copies of it, or [1.0 / N] when that sum is zero; poses and landmark
    arrays are as before. *)
Theorem equal_weights_stay_equal (rnd : Q -> Q) (N : nat) (w : float)
    (ps : list Particle.t) :
  length ps = N -> all_weights w ps ->
  exists ps',
    Rounded.normalize_weight rnd N ps = inr ps'
    /\ length ps' = N
    /\ all_weights (Rounded.renormalised rnd N w) ps'
    /\ Forall2 same_state ps' ps.
Proof.
  intros Hlen Hall. eexists.
  split; [apply (rounded_normalize_equal rnd N w ps Hlen Hall) |].
  split; [rewrite length_map; exact Hlen |].
  split; [apply all_weights_set_w |].
  apply (Forall2_map_self same_state). intros p _. apply same_state_set_w.
Qed.

Lemma equal_weights_stay_equal_witness :
  exists ps',
    Rounded.normalize_weight round64 100 (Rounded.main_particles round64 100)
    = inr ps'
    /\ length ps' = 100%nat
    /\ all_weights (Fin (5764607523034231 # 576460752303423488)) ps'.
Proof.
  destruct (equal_weights_stay_equal round64 100 (Rounded.inv_N round64 100)
              (Rounded.main_particles round64 100))
    as (ps' & Hn & Hl & Hall & _).
  - vm_compute. reflexivity.
  - apply all_weights_set_w.
  - exists ps'. split; [exact Hn |]. split; [exact Hl |]. exact Hall.
Defined.
